(** * ObjectCache with a pluggable eviction policy (main.cpp)

    A shallow embedding of the [ObjectCache<K, V>] class template, of the
    [CachePolicy] interface and of its one implementation [LRUPolicy],
    followed by the properties of the cache engine.

    Modelling conventions.
    - A heap object managed by [std::shared_ptr] is identified by a number;
      both smart pointers are an optional object identity ([None] is the
      null pointer).  Whether an object still has a strong owner is a fact
      of the environment ([alive]); the cache never changes it.
    - [std::chrono::steady_clock::now()] reads the next value of a stream of
      clock readings; every call consumes one reading.
    - [std::unordered_map] is a list of key/entry pairs in iteration order,
      an iterator is a position in it and [end()] is its length.  Erasing
      keeps the order of the other elements; where a new key lands is left
      to the hash table ([InsertionOrder]).
    - There is one thread of control.  Dereferencing or erasing [end()], and
      locking a [std::mutex] that the thread already holds, are undefined
      behaviour: the outcome [Undefined].  Every operation on the mutex is
      recorded in a log, so that one can tell which methods take the lock. *)

From Stdlib Require Import ZArith Lia.
From stdpp Require Import base option list strings.

(** ** Outcomes and programs *)

Inductive Outcome (A : Type) : Type :=
| Returns (a : A)
| Undefined.
Arguments Returns {A} a.
Arguments Undefined {A}.

Global Instance Outcome_ret : MRet Outcome := @Returns.
Global Instance Outcome_bind : MBind Outcome := λ A B f o,
  match o with
  | Returns a => f a
  | Undefined => Undefined
  end.

(** A program over a state [S]: it returns a result and the next state, or
    its behaviour is undefined. *)
Definition Prog (S A : Type) : Type := S → Outcome (A * S).

Global Instance Prog_ret {S} : MRet (Prog S) := λ A a s, Returns (a, s).
Global Instance Prog_bind {S} : MBind (Prog S) := λ A B f p s,
  match p s with
  | Returns (a, s') => f a s'
  | Undefined => Undefined
  end.

(** An outcome that does not touch the state. *)
Definition lift {S A} (o : Outcome A) : Prog S A := λ s,
  match o with
  | Returns a => Returns (a, s)
  | Undefined => Undefined
  end.

(** ** Smart pointers, the clock and the mutex *)

Abbreviation Obj := nat.
Abbreviation shared_ptr := (option Obj).
Abbreviation weak_ptr := (option Obj).
Abbreviation time_point := Z.

Inductive LockEvent : Type := Acquire | Release.

(** What surrounds the cache object: which objects still have a strong
    owner, the steady clock, the number of readings taken from it, and the
    history of operations on the cache's mutex. *)
Record Env : Type := mkEnv {
  alive : Obj → bool;
  clock : nat → time_point;
  reads : nat;
  lock_log : list LockEvent
}.

(** ** The class template [ObjectCache<K, V>] *)

Record CacheEntry : Type := mkEntry {
  value : weak_ptr;
  created_at : time_point;
  last_accessed_at : time_point
}.

(** An iterator into the table: a position, [end()] being the length. *)
Abbreviation Iter := nat.

(** The table: the elements of the [std::unordered_map], in iteration
    order. *)
Abbreviation Table K := (list (K * CacheEntry)).

Section Cache.

Context {K : Type} `{EqDecision K}.

(** Where [operator[]] places a key that is not in the table yet.  The
    hash table may rehash, so the new iteration order is any arrangement
    of the old elements and the new one. *)
Class InsertionOrder : Type := {
  emplace : K → CacheEntry → Table K → Table K;
  emplace_perm : ∀ k e t, emplace k e t ≡ₚ (k, e) :: t
}.

Context {ord : InsertionOrder}.

(** [class CachePolicy]: one virtual method working on the table. *)
Record CachePolicy : Type := mkPolicy {
  Evict : Table K → Outcome (Table K)
}.

Record ObjectCache : Type := mkCache {
  cache_ : Table K;
  policy_ : option CachePolicy;
  mutex_ : bool;
  max_size_ : nat
}.

Record Machine : Type := mkMachine {
  self : ObjectCache;
  env : Env
}.

(** *** Table primitives *)

Definition begin_ (t : Table K) : Iter := 0.
Definition end_ (t : Table K) : Iter := length t.

(** [t.find(key)]: the position of the element with that key, or [end()]. *)
Fixpoint find (key : K) (t : Table K) : Iter :=
  match t with
  | [] => 0
  | (k, _) :: r => if decide (k = key) then 0 else S (find key r)
  end.

(** [*it] *)
Definition deref (t : Table K) (it : Iter) : Outcome (K * CacheEntry) :=
  match t !! it with
  | Some x => Returns x
  | None => Undefined
  end.

(** [t.erase(it)] *)
Definition erase (t : Table K) (it : Iter) : Outcome (Table K) :=
  if decide (it < end_ t) then Returns (delete it t) else Undefined.

(** [t[key] = e] *)
Definition assign (key : K) (e : CacheEntry) (t : Table K) : Table K :=
  let it := find key t in
  if decide (it = end_ t) then emplace key e t else <[it := (key, e)]> t.

(** *** Machine primitives *)

Definition with_cache (t : Table K) (m : Machine) : Machine :=
  mkMachine (mkCache t (policy_ (self m)) (mutex_ (self m)) (max_size_ (self m)))
            (env m).

Definition with_policy (p : option CachePolicy) (m : Machine) : Machine :=
  mkMachine (mkCache (cache_ (self m)) p (mutex_ (self m)) (max_size_ (self m)))
            (env m).

Definition with_mutex (b : bool) (ev : LockEvent) (m : Machine) : Machine :=
  mkMachine (mkCache (cache_ (self m)) (policy_ (self m)) b (max_size_ (self m)))
            (mkEnv (alive (env m)) (clock (env m)) (reads (env m))
                   (lock_log (env m) ++ [ev])).

Definition with_read (m : Machine) : Machine :=
  mkMachine (self m)
            (mkEnv (alive (env m)) (clock (env m)) (S (reads (env m)))
                   (lock_log (env m))).

Definition get_cache : Prog Machine (Table K) := λ m, Returns (cache_ (self m), m).
Definition set_cache (t : Table K) : Prog Machine unit :=
  λ m, Returns (tt, with_cache t m).
Definition get_policy : Prog Machine (option CachePolicy) :=
  λ m, Returns (policy_ (self m), m).
Definition set_policy (p : option CachePolicy) : Prog Machine unit :=
  λ m, Returns (tt, with_policy p m).

(** A table operation applied to [cache_]. *)
Definition on_cache (f : Table K → Outcome (Table K)) : Prog Machine unit := λ m,
  match f (cache_ (self m)) with
  | Returns t => Returns (tt, with_cache t m)
  | Undefined => Undefined
  end.

(** [std::chrono::steady_clock::now()] *)
Definition now : Prog Machine time_point :=
  λ m, Returns (clock (env m) (reads (env m)), with_read m).

(** [w.expired()] *)
Definition is_expired (live : Obj → bool) (w : weak_ptr) : bool :=
  match w with
  | Some o => negb (live o)
  | None => true
  end.

Definition expired (w : weak_ptr) : Prog Machine bool :=
  λ m, Returns (is_expired (alive (env m)) w, m).

(** [w.lock()] *)
Definition weak_lock (w : weak_ptr) : Prog Machine shared_ptr :=
  λ m, Returns (if is_expired (alive (env m)) w then None else w, m).

(** [mutex_.lock()] and [mutex_.unlock()] *)
Definition mutex_lock : Prog Machine unit := λ m,
  if mutex_ (self m) then Undefined
  else Returns (tt, with_mutex true Acquire m).

Definition mutex_unlock : Prog Machine unit :=
  λ m, Returns (tt, with_mutex false Release m).

(** [std::lock_guard<std::mutex> lock(mutex_);] over the rest of the body:
    the destructor unlocks on every way out of the scope. *)
Definition lock_guard {A} (body : Prog Machine A) : Prog Machine A :=
  mutex_lock ;; r ← body; mutex_unlock ;; mret r.

(** *** [struct CacheEntry] *)

(** [void Access()] *)
Definition Access (e : CacheEntry) : Prog Machine CacheEntry :=
  t ← now; mret (mkEntry (value e) (created_at e) t).

(** [CacheEntry(const std::shared_ptr<V> v)]: the member initialisers, then
    the body; [last_accessed_at] starts at the clock's epoch. *)
Definition CacheEntry_new (v : shared_ptr) : Prog Machine CacheEntry :=
  t ← now; Access (mkEntry v t 0%Z).

(** *** [LRUPolicy::Evict] *)

(** The scan: [rest] holds the elements from [it] to the end. *)
Fixpoint LRU_scan (t rest : Table K) (it lru : Iter) : Outcome Iter :=
  match rest with
  | [] => Returns lru
  | _ :: rest' =>
      x ← deref t it;
      y ← deref t lru;
      LRU_scan t rest' (S it)
        (if decide (last_accessed_at x.2 < last_accessed_at y.2)%Z then it else lru)
  end.

Definition LRU_Evict (cache : Table K) : Outcome (Table K) :=
  lru ← LRU_scan cache cache (begin_ cache) (begin_ cache);
  if decide (lru ≠ end_ cache) then erase cache lru else Returns cache.

Definition LRUPolicy : CachePolicy := mkPolicy LRU_Evict.

(** *** The public methods *)

(** [explicit ObjectCache(size_t max_size = 1000)] *)
Definition ObjectCache_new (max_size : nat) : Outcome ObjectCache :=
  Returns (mkCache [] None false max_size).

Definition ObjectCache_default : Outcome ObjectCache := ObjectCache_new 1000.

Definition SetPolicy (new_policy : option CachePolicy) : Prog Machine unit :=
  lock_guard (set_policy new_policy).

(** The loop of [CleanupExpired]: the table is [visited ++ rest] and [it]
    stands at the head of [rest]. *)
Fixpoint CleanupExpired_loop (live : Obj → bool) (visited rest : Table K) : Table K :=
  match rest with
  | [] => visited
  | x :: rest' =>
      if is_expired live (value x.2)
      then CleanupExpired_loop live visited rest'
      else CleanupExpired_loop live (visited ++ [x]) rest'
  end.

Definition CleanupExpired : Prog Machine unit := λ m,
  Returns (tt, with_cache (CleanupExpired_loop (alive (env m)) [] (cache_ (self m))) m).

Definition Put (key : K) (val : shared_ptr) : Prog Machine unit :=
  lock_guard (
    CleanupExpired ;;
    policy ← get_policy;
    match policy with
    | Some p => on_cache (Evict p)
    | None => on_cache (λ t, erase t (begin_ t))
    end ;;
    e ← CacheEntry_new val;
    t ← get_cache;
    set_cache (assign key e t)).

Definition Get (key : K) : Prog Machine (option shared_ptr) :=
  lock_guard (
    t ← get_cache;
    let it := find key t in
    if decide (it = end_ t) then mret None
    else
      x ← lift (deref t it);
      b ← expired (value x.2);
      if b : bool then on_cache (λ t, erase t it) ;; mret None
      else
        e ← Access x.2;
        set_cache (<[it := (x.1, e)]> t) ;;
        v ← weak_lock (value e);
        mret (Some v)).

Definition Size : Prog Machine nat :=
  lock_guard (t ← get_cache; mret (length t)).

Definition Clear : Prog Machine unit :=
  lock_guard (set_cache []).

Definition Contains (key : K) : Prog Machine bool :=
  lock_guard (
    t ← get_cache;
    let it := find key t in
    if decide (find key t ≠ end_ t) then
      x ← lift (deref t it);
      b ← expired (value x.2);
      mret (negb b)
    else mret false).

(** *** Client programs *)

(** The last strong owner of [o] lets go of it. *)
Definition release (o : Obj) : Prog Machine unit := λ m,
  Returns (tt, mkMachine (self m)
    (mkEnv (λ x, if decide (x = o) then false else alive (env m) x)
           (clock (env m)) (reads (env m)) (lock_log (env m)))).

(** What a client can do with a cache: call a public method, or drop the
    last strong reference to an object. *)
Inductive Action : Type :=
| CallSetPolicy (new_policy : option CachePolicy)
| CallPut (key : K) (val : shared_ptr)
| CallGet (key : K)
| CallCleanupExpired
| CallSize
| CallClear
| CallContains (key : K)
| OwnerReleases (o : Obj).

Inductive Reply : Type :=
| Done
| Handle (h : option shared_ptr)
| Count (n : nat)
| Answer (b : bool).

Definition perform (a : Action) : Prog Machine Reply :=
  match a with
  | CallSetPolicy p => SetPolicy p ;; mret Done
  | CallPut key val => Put key val ;; mret Done
  | CallGet key => h ← Get key; mret (Handle h)
  | CallCleanupExpired => CleanupExpired ;; mret Done
  | CallSize => n ← Size; mret (Count n)
  | CallClear => Clear ;; mret Done
  | CallContains key => b ← Contains key; mret (Answer b)
  | OwnerReleases o => release o ;; mret Done
  end.

Fixpoint run (actions : list Action) : Prog Machine (list Reply) :=
  match actions with
  | [] => mret []
  | a :: rest => r ← perform a; rs ← run rest; mret (r :: rs)
  end.

(** A machine whose cache has just been constructed with [max_size]. *)
Definition fresh (max_size : nat) (e : Env) : Outcome Machine :=
  c ← ObjectCache_new max_size; mret (mkMachine c e).

End Cache.

Arguments InsertionOrder K : clear implicits.
Arguments CachePolicy : clear implicits.
Arguments ObjectCache : clear implicits.
Arguments Machine : clear implicits.
Arguments Action : clear implicits.

(** A hash table that puts every new key first in iteration order. *)
Definition front_insertion {K} : InsertionOrder K := {|
  emplace := λ k e t, (k, e) :: t;
  emplace_perm := λ k e t, reflexivity _
|}.

(** A hash table that puts every new key last in iteration order. *)
Definition back_insertion {K} : InsertionOrder K := {|
  emplace := λ k e t, t ++ [(k, e)];
  emplace_perm := λ k e t, symmetry (Permutation_cons_append t (k, e))
|}.

(** * Vocabulary of the properties *)

(** The entries a sweep keeps. *)
Abbreviation unexpired live :=
  (λ x : _ * CacheEntry, is_expired live (value x.2) = false).

Section Vocabulary.

Context {K : Type} `{EqDecision K} {ord : InsertionOrder K}.

(** No thread holds the cache's mutex: the state in which a client calls a
    public method. *)
Definition unlocked (m : Machine K) : Prop := mutex_ (self m) = false.

(** The machine once a method that took the lock has returned, having left
    the table [t] behind and read the clock [n] times. *)
Definition after_call (m : Machine K) (t : Table K) (n : nat) : Machine K :=
  mkMachine
    (mkCache t (policy_ (self m)) false (max_size_ (self m)))
    (mkEnv (alive (env m)) (clock (env m)) (n + reads (env m))
           ((lock_log (env m) ++ [Acquire]) ++ [Release])).

(** The entry that [CacheEntry(val)] builds in the environment [ev]: two
    consecutive clock readings. *)
Definition put_entry (val : shared_ptr) (ev : Env) : CacheEntry :=
  mkEntry val (clock ev (reads ev)) (clock ev (S (reads ev))).

(** What the scan knows about [lru] when [it] has been reached: nothing
    before [lru] is as old, and nothing between [lru] and [it] is older. *)
Definition oldest_so_far (t : Table K) (it lru : Iter) : Prop :=
  lru ≤ it ∧ ∃ y, t !! lru = Some y ∧
    (∀ j x, j < lru → t !! j = Some x →
       (last_accessed_at y.2 < last_accessed_at x.2)%Z) ∧
    (∀ j x, lru < j < it → t !! j = Some x →
       (last_accessed_at y.2 ≤ last_accessed_at x.2)%Z).

(** [t'] is [t] with exactly one element taken out. *)
Definition removes_one (t t' : Table K) : Prop :=
  ∃ l1 x l2, t = l1 ++ x :: l2 ∧ t' = l1 ++ l2.

(** The contract of an eviction policy: nothing happens on an empty table,
    exactly one element goes from any other. *)
Definition honours_contract (p : CachePolicy K) : Prop :=
  Evict p [] = Returns [] ∧
  ∀ t, t ≠ [] → ∃ t', Evict p t = Returns t' ∧ removes_one t t'.

(** Keys are unique in a table. *)
Definition unique_keys (t : Table K) : Prop := NoDup t.*1.

Definition is_put_or_release (a : Action K) : Prop :=
  match a with
  | CallPut _ _ | OwnerReleases _ => True
  | _ => False
  end.

Definition is_set_policy (a : Action K) : Prop :=
  match a with
  | CallSetPolicy _ => True
  | _ => False
  end.

(** How one action may change the table of [m]. *)
Definition table_change (a : Action K) (m : Machine K) (t' : Table K) : Prop :=
  let t := cache_ (self m) in
  match a with
  | CallPut key val =>
      ∃ t1,
        match policy_ (self m) with
        | Some p => Evict p (filter (unexpired (alive (env m))) t)
        | None => erase (filter (unexpired (alive (env m))) t) 0
        end = Returns t1 ∧
        t' = assign key (put_entry val (env m)) t1
  | CallGet key =>
      t' = t ∨
      (∃ it, it < length t ∧ t' = delete it t) ∨
      (∃ it k e e', t !! it = Some (k, e) ∧ t' = <[it := (k, e')]> t)
  | CallCleanupExpired => t' = filter (unexpired (alive (env m))) t
  | CallClear => t' = []
  | _ => t' = t
  end.

(** The policy installed after an action. *)
Definition policy_after (a : Action K) (m : Machine K) : option (CachePolicy K) :=
  match a with
  | CallSetPolicy p => p
  | _ => policy_ (self m)
  end.

(** A machine a client can be in: the mutex is free, keys are unique, the
    table fits the positive capacity, and the policy, if there is one,
    honours the contract. *)
Definition sound (m : Machine K) : Prop :=
  unlocked m ∧
  unique_keys (cache_ (self m)) ∧
  0 < max_size_ (self m) ∧
  length (cache_ (self m)) ≤ max_size_ (self m) ∧
  ∀ q, policy_ (self m) = Some q → honours_contract q.

(** Every policy a client program installs honours the contract. *)
Definition installs_sound_policies (a : Action K) : Prop :=
  match a with
  | CallSetPolicy (Some p) => honours_contract p
  | _ => True
  end.

(** [x] carries two readings that the clock [c] gave before its [r]-th
    one, the reading behind [created_at] not later than the one behind
    [last_accessed_at]. *)
Definition stamp_ok (c : nat → time_point) (r : nat) (x : K * CacheEntry) : Prop :=
  ∃ i j, i ≤ j ∧ j < r ∧
         created_at x.2 = c i ∧ last_accessed_at x.2 = c j.

(** Every timestamp in the table of [m] is a past reading of the clock. *)
Definition stamped (m : Machine K) : Prop :=
  Forall (stamp_ok (clock (env m)) (reads (env m))) (cache_ (self m)).

(** The constructor refuses the capacity [n]. *)
Definition construction_fails (n : nat) : Prop :=
  ∀ c : ObjectCache K, ObjectCache_new n ≠ Returns c.

End Vocabulary.

(** [std::chrono::steady_clock] never goes back. *)
Definition steady (c : nat → time_point) : Prop :=
  ∀ i j, i ≤ j → (c i ≤ c j)%Z.

(** ** Test fixtures, after the two tests of [main.cpp] *)

(** Every object keeps a strong owner, the clock advances by one at every
    reading, and the mutex has never been used. *)
Definition test_env : Env := mkEnv (λ _, true) Z.of_nat 0 [].

(** A cache as the constructor leaves it, keyed by strings. *)
Definition test_cache (max_size : nat) : Machine string :=
  mkMachine (mkCache [] None false max_size) test_env.

Definition res1 : shared_ptr := Some 1.
Definition res2 : shared_ptr := Some 2.
Definition res3 : shared_ptr := Some 3.
Definition temp : shared_ptr := Some 2.

(** [TestObjectsDeletedAfterScope] after its first [Put]. *)
Definition live_cache : Machine string :=
  mkMachine
    (mkCache [("key1", mkEntry res1 0 1)] (Some LRUPolicy) false 2)
    (mkEnv (λ _, true) Z.of_nat 2 [Acquire; Release; Acquire; Release]).

(** [TestObjectsDeletedAfterScope] after its inner scope: the owner of the
    object behind [temp] is gone. *)
Definition stale_cache : Machine string :=
  mkMachine
    (mkCache [("temp", mkEntry temp 2 3)] (Some LRUPolicy) false 2)
    (mkEnv (λ o, if decide (o = 2) then false else true) Z.of_nat 4
           [Acquire; Release; Acquire; Release; Acquire; Release]).

(** * Properties *)

Section Properties.

Context {K : Type} `{EqDecision K} {ord : InsertionOrder K}.

Implicit Types (t rest : Table K) (key : K) (e : CacheEntry) (m : Machine K).

Lemma bind_Returns {A B} (a : A) (f : A → Outcome B) :
  Returns a ≫= f = f a.
Proof. reflexivity. Qed.

(** ** Looking a key up *)

Lemma find_le key t : find key t ≤ length t.
Proof.
  induction t as [|[k e] t IH]; simpl; [lia|]. case_decide; lia.
Qed.

Lemma find_absent key t : key ∉ t.*1 → find key t = length t.
Proof.
  induction t as [|[k e] t IH]; simpl; [done|].
  rewrite not_elem_of_cons. intros [Hne Hnin].
  case_decide; [congruence|]. by rewrite IH.
Qed.

Lemma find_first key e l1 l2 :
  key ∉ l1.*1 → find key (l1 ++ (key, e) :: l2) = length l1.
Proof.
  induction l1 as [|[k e'] l1 IH]; simpl.
  - intros _. by case_decide.
  - rewrite not_elem_of_cons. intros [Hne Hnin].
    case_decide; [congruence|]. by rewrite IH.
Qed.

Lemma find_lookup key t :
  find key t < length t → ∃ e, t !! find key t = Some (key, e).
Proof.
  induction t as [|[k e] t IH]; simpl; [lia|].
  case_decide as Hk.
  - subst. eauto.
  - intros Hlt. apply IH. lia.
Qed.

Lemma find_present key t :
  key ∈ t.*1 → find key t < length t.
Proof.
  induction t as [|[k e] t IH]; simpl.
  - by rewrite elem_of_nil.
  - rewrite elem_of_cons. intros [->|Hin]; case_decide; try lia; try congruence.
    specialize (IH Hin). lia.
Qed.

(** ** The sweep *)

Lemma CleanupExpired_loop_filter live visited rest :
  CleanupExpired_loop live visited rest = visited ++ filter (unexpired live) rest.
Proof.
  revert visited. induction rest as [|x rest IH]; intros visited.
  - simpl. by rewrite app_nil_r.
  - rewrite filter_cons. cbn [CleanupExpired_loop].
    destruct (is_expired live (value x.2)) eqn:Hx.
    + rewrite IH. by case_decide.
    + rewrite IH, <- app_assoc. by case_decide.
Qed.

Lemma CleanupExpired_eq m :
  CleanupExpired m
  = Returns (tt, with_cache (filter (unexpired (alive (env m))) (cache_ (self m))) m).
Proof.
  unfold CleanupExpired. by rewrite CleanupExpired_loop_filter.
Qed.

(** ** The scan of [LRUPolicy] *)

Lemma LRU_scan_oldest t rest : ∀ pre lru,
  t = pre ++ rest →
  oldest_so_far t (length pre) lru →
  ∃ lru', LRU_scan t rest (length pre) lru = Returns lru' ∧
          oldest_so_far t (length t) lru'.
Proof.
  induction rest as [|x rest IH]; intros pre lru Ht Hinv.
  - exists lru. split; [done|]. subst t. by rewrite app_nil_r in *.
  - destruct Hinv as (Hle & y & Hy & Hbefore & Hbetween).
    assert (Hx : t !! length pre = Some x).
    { subst t. by rewrite list_lookup_middle. }
    cbn [LRU_scan]. unfold deref. rewrite Hx, Hy, !bind_Returns.
    replace (S (length pre)) with (length (pre ++ [x]))
      by (rewrite length_app; simpl; lia).
    apply IH; [by rewrite <- app_assoc|].
    rewrite length_app; simpl.
    case_decide as Hlt.
    + split; [lia|]. exists x. split; [done|]. split.
      * intros j z Hj Hz.
        destruct (decide (j < lru)) as [Hjl|Hjl].
        { specialize (Hbefore j z Hjl Hz). lia. }
        destruct (decide (j = lru)) as [->|Hne].
        { rewrite Hy in Hz. by simplify_eq. }
        assert (lru < j < length pre) as Hjb by lia.
        specialize (Hbetween j z Hjb Hz). lia.
      * intros j z Hj. lia.
    + split; [lia|]. exists y. split; [done|]. split; [done|].
      intros j z Hj Hz.
      destruct (decide (j = length pre)) as [->|Hne].
      { rewrite Hx in Hz. simplify_eq. lia. }
      apply (Hbetween j z); [lia|done].
Qed.

Lemma LRU_Evict_nil : LRU_Evict (K := K) [] = Returns [].
Proof. reflexivity. Qed.

Lemma LRU_Evict_oldest t :
  0 < length t →
  ∃ l1 y l2,
    t = l1 ++ y :: l2 ∧
    LRU_Evict t = Returns (l1 ++ l2) ∧
    Forall (λ z, (last_accessed_at y.2 < last_accessed_at z.2)%Z) l1 ∧
    Forall (λ z, (last_accessed_at y.2 ≤ last_accessed_at z.2)%Z) l2.
Proof.
  intros Hpos.
  destruct (LRU_scan_oldest t t [] 0 eq_refl)
    as (lru & Hscan & Hle & y & Hy & Hbefore & Hafter).
  { split; [done|]. destruct t as [|x t]; [simpl in Hpos; lia|].
    exists x. split; [done|]. split; intros j z Hj; simpl in Hj; lia. }
  pose proof (lookup_lt_Some _ _ _ Hy) as Hlt.
  exists (take lru t), y, (drop (S lru) t).
  split; [by rewrite take_drop_middle|]. split.
  - unfold LRU_Evict, begin_. change (length []) with 0 in Hscan.
    rewrite Hscan, bind_Returns.
    unfold erase, end_. case_decide; [|lia]. case_decide; [|lia].
    f_equal. rewrite <- (take_drop_middle t lru y) at 1 by done.
    rewrite <- (length_take_le t lru) at 1 by lia.
    by rewrite delete_middle.
  - split; apply Forall_forall; intros z Hz;
      apply list_elem_of_lookup in Hz as [j Hj].
    + pose proof (lookup_lt_Some _ _ _ Hj) as Hjl.
      rewrite length_take in Hjl. rewrite lookup_take_lt in Hj by lia.
      apply (Hbefore j z); [lia|done].
    + rewrite lookup_drop in Hj.
      pose proof (lookup_lt_Some _ _ _ Hj) as Hjl.
      apply (Hafter (S lru + j) z); [lia|done].
Qed.

(** ** What each method does, once the lock is taken *)

Lemma lock_guard_run {A} (body : Prog (Machine K) A) m :
  unlocked m →
  lock_guard body m =
    match body (with_mutex true Acquire m) with
    | Returns (a, m1) => Returns (a, with_mutex false Release m1)
    | Undefined => Undefined
    end.
Proof.
  unfold unlocked, lock_guard, mutex_lock, mutex_unlock, mbind, Prog_bind, mret, Prog_ret.
  intros ->. by destruct (body _) as [[a m1]|].
Qed.


Lemma Put_run key val m :
  unlocked m →
  Put key val m =
    t1 ← match policy_ (self m) with
         | Some p => Evict p (filter (unexpired (alive (env m))) (cache_ (self m)))
         | None => erase (filter (unexpired (alive (env m))) (cache_ (self m))) 0
         end;
    mret (tt, after_call m (assign key (put_entry val (env m)) t1) 2).
Proof.
  intros Hm. unfold Put. rewrite lock_guard_run by done.
  unfold mbind at 1. unfold Prog_bind at 1. rewrite CleanupExpired_eq.
  destruct m as [[t p mx n] [al cl r lg]]. unfold unlocked in Hm. simpl in Hm. subst mx.
  unfold mbind, Prog_bind, get_policy, with_cache, with_mutex; cbn [self env policy_ cache_ alive].
  destruct p as [p|]; unfold on_cache; cbn [self env policy_ cache_ alive].
  - destruct (Evict p _) as [t1|]; reflexivity.
  - unfold begin_. destruct (erase _ 0) as [t1|]; reflexivity.
Qed.

Lemma Get_run key m :
  unlocked m →
  Get key m =
    let t := cache_ (self m) in
    let it := find key t in
    if decide (it = length t) then Returns (None, after_call m t 0)
    else
      match t !! it with
      | Some x =>
          if is_expired (alive (env m)) (value x.2)
          then Returns (None, after_call m (delete it t) 0)
          else Returns (Some (value x.2),
                        after_call m
                          (<[it := (x.1, mkEntry (value x.2) (created_at x.2)
                                           (clock (env m) (reads (env m))))]> t) 1)
      | None => Undefined
      end.
Proof.
  intros Hm. unfold Get. rewrite lock_guard_run by done.
  destruct m as [[t p mx n] [al cl r lg]]. unfold unlocked in Hm. simpl in Hm. subst mx.
  unfold mbind, Prog_bind, get_cache, with_mutex, end_; cbn [self env cache_ alive].
  cbv zeta. case_decide as Hit; [reflexivity|].
  unfold lift, deref. destruct (t !! find key t) as [x|] eqn:Hx; [|reflexivity].
  pose proof (lookup_lt_Some _ _ _ Hx) as Hlt.
  unfold expired; cbn [self env cache_ alive].
  destruct (is_expired al (value x.2)) eqn:Hexp.
  - unfold on_cache, erase, end_; cbn [self env cache_ alive].
    case_decide; [reflexivity|lia].
  - unfold Access, now, set_cache, weak_lock, mbind, Prog_bind, mret, Prog_ret,
      with_read, with_cache; cbn [self env cache_ alive value].
    by rewrite Hexp.
Qed.

Lemma Contains_run key m :
  unlocked m →
  Contains key m =
    Returns (match cache_ (self m) !! find key (cache_ (self m)) with
             | Some x => negb (is_expired (alive (env m)) (value x.2))
             | None => false
             end,
             after_call m (cache_ (self m)) 0).
Proof.
  intros Hm. unfold Contains. rewrite lock_guard_run by done.
  destruct m as [[t p mx n] [al cl r lg]]. unfold unlocked in Hm. simpl in Hm. subst mx.
  unfold mbind, Prog_bind, get_cache, with_mutex, end_; cbn [self env cache_ alive].
  cbv zeta. pose proof (find_le key t) as Hle. case_decide as Hit.
  - unfold lift, deref. destruct (t !! find key t) as [x|] eqn:Hx; [reflexivity|].
    apply lookup_ge_None in Hx. lia.
  - rewrite lookup_ge_None_2 by lia. reflexivity.
Qed.

Lemma Size_run m :
  unlocked m →
  Size m = Returns (length (cache_ (self m)), after_call m (cache_ (self m)) 0).
Proof.
  intros Hm. unfold Size. rewrite lock_guard_run by done.
  destruct m as [[t p mx n] [al cl r lg]]. unfold unlocked in Hm. simpl in Hm. by subst mx.
Qed.

Lemma Clear_run m :
  unlocked m → Clear m = Returns (tt, after_call m [] 0).
Proof.
  intros Hm. unfold Clear. rewrite lock_guard_run by done.
  destruct m as [[t p mx n] [al cl r lg]]. unfold unlocked in Hm. simpl in Hm. by subst mx.
Qed.

Lemma SetPolicy_run new_policy m :
  unlocked m →
  SetPolicy new_policy m
  = Returns (tt, with_policy new_policy (after_call m (cache_ (self m)) 0)).
Proof.
  intros Hm. unfold SetPolicy. rewrite lock_guard_run by done.
  destruct m as [[t p mx n] [al cl r lg]]. unfold unlocked in Hm. simpl in Hm. by subst mx.
Qed.

Lemma after_call_unlocked m t n : unlocked (after_call m t n).
Proof. reflexivity. Qed.

Lemma after_call_self m :
  unlocked m → self (after_call m (cache_ (self m)) 0) = self m.
Proof.
  destruct m as [[t p mx n] [al cl r lg]]. unfold unlocked. simpl. by intros ->.
Qed.

(** ** [LRUPolicy::Evict] *)

(** C4.  [LRUPolicy::Evict] leaves an empty table as it is.  From a table
    with at least one element it takes out exactly one, the element [y]
    with the smallest [last_accessed_at]: everything that stays is at least
    as recent, and everything before [y] in iteration order is strictly
    more recent, so that among equally old elements the first one met
    goes. *)
Theorem LRUPolicy_Evict_spec :
  Evict (K := K) LRUPolicy [] = Returns [] ∧
  ∀ x t, ∃ l1 y l2,
    x :: t = l1 ++ y :: l2 ∧
    Evict LRUPolicy (x :: t) = Returns (l1 ++ l2) ∧
    Forall (λ z, (last_accessed_at y.2 < last_accessed_at z.2)%Z) l1 ∧
    Forall (λ z, (last_accessed_at y.2 ≤ last_accessed_at z.2)%Z) l2.
Proof.
  split; [apply LRU_Evict_nil|].
  intros x t. apply LRU_Evict_oldest. simpl. lia.
Qed.

Lemma LRUPolicy_honours_contract : honours_contract (K := K) LRUPolicy.
Proof.
  split; [apply LRU_Evict_nil|].
  intros [|x t] Hne; [done|].
  destruct (LRU_Evict_oldest (x :: t)) as (l1 & y & l2 & Ht & Hev & _);
    [simpl; lia|].
  exists (l1 ++ l2). split; [done|]. by exists l1, y, l2.
Qed.

(** ** [CleanupExpired] *)

Lemma filter_unexpired_twice live t :
  filter (unexpired live) (filter (unexpired live) t) = filter (unexpired live) t.
Proof. by apply list_filter_filter_l. Qed.

(** C8.  [CleanupExpired] always returns; the table it leaves holds the
    unexpired entries of the old one, in their order, and no expired entry;
    nothing else changes.  Called again in the state it returned, with the
    same objects alive, it returns that very state: no entry is removed. *)
Theorem CleanupExpired_idempotent m :
  ∃ m1,
    CleanupExpired m = Returns (tt, m1) ∧
    cache_ (self m1) = filter (unexpired (alive (env m))) (cache_ (self m)) ∧
    Forall (unexpired (alive (env m))) (cache_ (self m1)) ∧
    policy_ (self m1) = policy_ (self m) ∧
    max_size_ (self m1) = max_size_ (self m) ∧
    env m1 = env m ∧
    CleanupExpired m1 = Returns (tt, m1).
Proof.
  eexists. split; [apply CleanupExpired_eq|].
  repeat split.
  - apply Forall_forall. intros x Hx. by apply list_elem_of_filter in Hx as [? _].
  - rewrite CleanupExpired_eq. unfold with_cache; cbn [self env cache_ policy_ mutex_ max_size_].
    by rewrite filter_unexpired_twice.
Qed.

(** ** [Get] *)

(** C5.  Called with the mutex free, [Get] returns in each case.  If no
    entry has the key, the result is empty and the cache is as before.  If
    the entry of the key has expired, that entry is erased and the result is
    empty.  If it refers to an object [o] that is still alive, its
    [last_accessed_at] becomes the clock reading taken by the call, nothing
    else in the table changes, and the result is a strong pointer to [o]. *)
Theorem Get_spec key m :
  unlocked m →
  (key ∉ (cache_ (self m)).*1 →
     Get key m = Returns (None, after_call m (cache_ (self m)) 0)) ∧
  (∀ l1 e l2,
     cache_ (self m) = l1 ++ (key, e) :: l2 → key ∉ l1.*1 →
     (is_expired (alive (env m)) (value e) = true →
        Get key m = Returns (None, after_call m (l1 ++ l2) 0)) ∧
     (∀ o, value e = Some o → alive (env m) o = true →
        Get key m =
          Returns (Some (Some o),
                   after_call m
                     (l1 ++ (key, mkEntry (Some o) (created_at e)
                                    (clock (env m) (reads (env m)))) :: l2) 1))).
Proof.
  intros Hm. split.
  - intros Hnin. rewrite Get_run by done. cbv zeta.
    rewrite find_absent by done. by rewrite decide_True.
  - intros l1 e l2 Ht Hnin.
    assert (Hfind : find key (cache_ (self m)) = length l1)
      by (rewrite Ht; by apply find_first).
    assert (Hlook : cache_ (self m) !! length l1 = Some (key, e))
      by (rewrite Ht; apply list_lookup_middle; done).
    assert (Hne : length l1 ≠ length (cache_ (self m)))
      by (rewrite Ht, length_app; simpl; lia).
    split.
    + intros Hexp. rewrite Get_run by done. cbv zeta.
      rewrite Hfind, decide_False, Hlook by done. cbn [snd]. rewrite Hexp.
      by rewrite Ht, delete_middle.
    + intros o Ho Halive. rewrite Get_run by done. cbv zeta.
      rewrite Hfind, decide_False, Hlook by done. cbn [fst snd].
      rewrite Ho. cbn [is_expired]. rewrite Halive. cbn [negb].
      rewrite Ht. by rewrite insert_app_r_alt, Nat.sub_diag by lia.
Qed.

(** ** Client programs, one action at a time *)

Lemma run_nil m : run [] m = Returns ([], m).
Proof. reflexivity. Qed.

Lemma run_cons a actions m :
  run (a :: actions) m =
    match perform a m with
    | Returns (r, m1) =>
        match run actions m1 with
        | Returns (rs, m2) => Returns (r :: rs, m2)
        | Undefined => Undefined
        end
    | Undefined => Undefined
    end.
Proof.
  cbn [run]. unfold mbind, Prog_bind.
  destruct (perform a m) as [[r m1]|]; [|done].
  by destruct (run actions m1) as [[rs m2]|].
Qed.

Lemma run_cons_inv a actions m rs m' :
  run (a :: actions) m = Returns (rs, m') →
  ∃ r m1 rs', perform a m = Returns (r, m1) ∧
              run actions m1 = Returns (rs', m') ∧ rs = r :: rs'.
Proof.
  rewrite run_cons. destruct (perform a m) as [[r m1]|]; [|done].
  destruct (run actions m1) as [[rs' m2]|] eqn:Hrest; [|done].
  intros; simplify_eq. by eexists _, _, _.
Qed.

Lemma perform_inv a m r m' :
  perform a m = Returns (r, m') →
  match a with
  | CallSetPolicy p => SetPolicy p m = Returns (tt, m') ∧ r = Done
  | CallPut key val => Put key val m = Returns (tt, m') ∧ r = Done
  | CallGet key => ∃ h, Get key m = Returns (h, m') ∧ r = Handle h
  | CallCleanupExpired => CleanupExpired m = Returns (tt, m') ∧ r = Done
  | CallSize => ∃ n, Size m = Returns (n, m') ∧ r = Count n
  | CallClear => Clear m = Returns (tt, m') ∧ r = Done
  | CallContains key => ∃ b, Contains key m = Returns (b, m') ∧ r = Answer b
  | OwnerReleases o => release o m = Returns (tt, m') ∧ r = Done
  end.
Proof.
  destruct a; unfold perform, mbind, Prog_bind, mret, Prog_ret;
    match goal with |- match ?c m with _ => _ end = _ → _ =>
      destruct (c m) as [[x m1]|] end;
    intros; simplify_eq; try destruct x; eauto.
Qed.

(** What an action leaves of the cache object. *)
Lemma perform_after a m r m' :
  unlocked m →
  perform a m = Returns (r, m') →
  ∃ t', self m' = mkCache t' (policy_after a m) false (max_size_ (self m)) ∧
        table_change a m t'.
Proof.
  intros Hm Hp. apply perform_inv in Hp.
  assert (Hself : self m = mkCache (cache_ (self m)) (policy_ (self m)) false
                                  (max_size_ (self m))).
  { destruct m as [[t p mx n] ev]. unfold unlocked in Hm. simpl in *. by subst. }
  destruct a; unfold table_change, policy_after; cbv zeta.
  - destruct Hp as [Hp _]. rewrite SetPolicy_run in Hp by done. simplify_eq. eauto.
  - destruct Hp as [Hp _]. rewrite Put_run in Hp by done.
    destruct (match policy_ (self m) with Some _ => _ | None => _ end)
      as [t1|] eqn:Hev; [|done].
    rewrite bind_Returns in Hp. unfold mret, Outcome_ret in Hp. simplify_eq.
    eexists. split; [done|]. exists t1. split; reflexivity.
  - destruct Hp as (h & Hp & _). rewrite Get_run in Hp by done. cbv zeta in Hp.
    case_decide; [simplify_eq; eauto|].
    destruct (cache_ (self m) !! _) as [[k e]|] eqn:Hx; [|done].
    pose proof (lookup_lt_Some _ _ _ Hx).
    destruct (is_expired _ _); simplify_eq; eexists; (split; [done|]).
    + right; left. eauto.
    + right; right. eauto 6.
  - destruct Hp as [Hp _]. rewrite CleanupExpired_eq in Hp. simplify_eq.
    eexists. split; [|done]. unfold with_cache; cbn [self]. by rewrite Hm.
  - destruct Hp as (n & Hp & _). rewrite Size_run in Hp by done. simplify_eq. eauto.
  - destruct Hp as [Hp _]. rewrite Clear_run in Hp by done. simplify_eq. eauto.
  - destruct Hp as (b & Hp & _). rewrite Contains_run in Hp by done. simplify_eq. eauto.
  - destruct Hp as [Hp _]. unfold release in Hp. simplify_eq. eauto.
Qed.

Lemma perform_unlocked a m r m' :
  unlocked m → perform a m = Returns (r, m') → unlocked m'.
Proof.
  intros Hm Hp. destruct (perform_after a m r m' Hm Hp) as (t' & Hself & _).
  unfold unlocked. by rewrite Hself.
Qed.

Lemma perform_policy a m r m' :
  unlocked m → perform a m = Returns (r, m') →
  policy_ (self m') = policy_after a m ∧ max_size_ (self m') = max_size_ (self m).
Proof.
  intros Hm Hp. destruct (perform_after a m r m' Hm Hp) as (t' & Hself & _).
  by rewrite Hself.
Qed.

(** ** Invariants of the table *)

Lemma find_end_absent key t : find key t = length t → key ∉ t.*1.
Proof.
  intros Hfind Hin. apply find_present in Hin. lia.
Qed.

Lemma length_assign key e t : length (assign key e t) ≤ S (length t).
Proof.
  unfold assign. cbv zeta. case_decide.
  - by rewrite emplace_perm.
  - rewrite length_insert. lia.
Qed.

Lemma assign_unique_keys key e t :
  unique_keys t → unique_keys (assign key e t).
Proof.
  unfold unique_keys, assign, end_. cbv zeta. intros Hdup. case_decide as Hit.
  - rewrite emplace_perm. rewrite fmap_cons. apply NoDup_cons.
    split; [by apply find_end_absent|done].
  - pose proof (find_le key t).
    destruct (find_lookup key t) as [e0 He0]; [lia|].
    rewrite list_fmap_insert. cbn [fst].
    rewrite list_insert_id; [done|]. by rewrite list_lookup_fmap, He0.
Qed.

Lemma removes_one_length t t' : removes_one t t' → length t = S (length t').
Proof.
  intros (l1 & x & l2 & -> & ->). rewrite !length_app. simpl. lia.
Qed.

Lemma removes_one_sublist t t' : removes_one t t' → t' `sublist_of` t.
Proof.
  intros (l1 & x & l2 & -> & ->).
  apply sublist_app; [done|]. by apply sublist_cons.
Qed.

Lemma sublist_unique_keys t t' :
  t' `sublist_of` t → unique_keys t → unique_keys t'.
Proof.
  unfold unique_keys. intros Hsub Hdup.
  eapply sublist_NoDup; [done|]. by apply fmap_sublist.
Qed.

(** What is left for [operator[]] after the sweep and the eviction of a
    [Put]: a part of the table, one element short unless the sweep left
    nothing. *)
Lemma eviction_step (p : option (CachePolicy K)) t t1 :
  (∀ q, p = Some q → honours_contract q) →
  match p with
  | Some q => Evict q t
  | None => erase t 0
  end = Returns t1 →
  t1 `sublist_of` t ∧ (t = [] ∧ t1 = [] ∧ is_Some p ∨ length t = S (length t1)).
Proof.
  intros Hp Hev. destruct p as [q|].
  - destruct (Hp q eq_refl) as [Hnil Hcons].
    destruct t as [|x t].
    + rewrite Hnil in Hev. simplify_eq. split; [done|]. left. eauto.
    + destruct (Hcons (x :: t)) as (t' & Hev' & Hone); [done|].
      rewrite Hev' in Hev. simplify_eq.
      split; [by apply removes_one_sublist|]. right. by apply removes_one_length.
  - unfold erase, end_ in Hev. case_decide as Hlt; [|done]. simplify_eq.
    split; [apply sublist_delete|]. right.
    destruct t; simpl in *; [lia|done].
Qed.

Lemma table_change_capacity a m t' :
  (∀ q, policy_ (self m) = Some q → honours_contract q) →
  0 < max_size_ (self m) →
  length (cache_ (self m)) ≤ max_size_ (self m) →
  table_change a m t' →
  length t' ≤ max_size_ (self m).
Proof.
  intros Hpol Hpos Hle. unfold table_change. cbv zeta.
  pose proof (length_filter (unexpired (alive (env m))) (cache_ (self m))) as Hsw.
  destruct a; try (intros ->; done || lia).
  - intros (t1 & Hev & ->).
    pose proof (length_assign key (put_entry val (env m)) t1).
    apply eviction_step in Hev as [_ [(_ & -> & _)|Hlen]]; [simpl in *; lia|lia|done].
  - intros [->|[(it & Hit & ->)|(it & k & e & e' & Hx & ->)]]; [done| |].
    + pose proof (length_delete (cache_ (self m)) it) as Hd.
      rewrite Hd by (apply lookup_lt_is_Some; lia). lia.
    + by rewrite length_insert.
  - intros ->. simpl. lia.
Qed.

Lemma table_change_unique_keys a m t' :
  (∀ q, policy_ (self m) = Some q → honours_contract q) →
  unique_keys (cache_ (self m)) →
  table_change a m t' →
  unique_keys t'.
Proof.
  intros Hpol Hdup. unfold table_change. cbv zeta.
  destruct a; try (intros ->; done).
  - intros (t1 & Hev & ->). apply assign_unique_keys.
    apply eviction_step in Hev as [Hsub _]; [|done].
    eapply sublist_unique_keys; [done|].
    eapply sublist_unique_keys; [apply sublist_filter|done].
  - intros [->|[(it & Hit & ->)|(it & k & e & e' & Hx & ->)]]; [done| |].
    + eapply sublist_unique_keys; [apply sublist_delete|done].
    + unfold unique_keys. rewrite list_fmap_insert. cbn [fst].
      rewrite list_insert_id; [done|]. by rewrite list_lookup_fmap, Hx.
  - intros ->. eapply sublist_unique_keys; [apply sublist_filter|done].
  - intros ->. apply NoDup_nil_2.
Qed.

Lemma perform_sound a m r m' :
  installs_sound_policies a →
  sound m → perform a m = Returns (r, m') → sound m'.
Proof.
  intros Ha (Hm & Hdup & Hpos & Hle & Hpol) Hp.
  destruct (perform_after a m r m' Hm Hp) as (t' & Hself & Hch).
  unfold sound, unlocked. rewrite Hself. cbn [cache_ policy_ mutex_ max_size_].
  split; [done|]. split; [by eapply table_change_unique_keys|].
  split; [done|]. split; [by eapply table_change_capacity|].
  intros q Hq. destruct a; try (by apply Hpol). simpl in Hq. subst. exact Ha.
Qed.

Lemma run_sound actions : ∀ m rs m',
  Forall installs_sound_policies actions →
  sound m → run actions m = Returns (rs, m') →
  sound m' ∧ max_size_ (self m') = max_size_ (self m).
Proof.
  induction actions as [|a actions IH]; intros m rs m' Hall Hm Hrun.
  - rewrite run_nil in Hrun. by simplify_eq.
  - apply Forall_cons in Hall as [Ha Hall].
    apply run_cons_inv in Hrun as (r & m1 & rs' & Hp & Hrest & _).
    destruct (perform_policy a m r m1) as [_ <-]; [apply Hm|done|].
    eapply IH; [done| |done]. by eapply perform_sound.
Qed.

(** ** [Put] *)

Lemma Put_returns key val m p :
  unlocked m → policy_ (self m) = Some p → honours_contract p →
  ∃ m', Put key val m = Returns (tt, m').
Proof.
  intros Hm Hp [Hnil Hcons]. rewrite Put_run, Hp by done.
  destruct (filter _ (cache_ (self m))) as [|x t] eqn:Hsw.
  - rewrite Hnil. by eexists.
  - destruct (Hcons (x :: t)) as (t' & -> & _); [done|]. by eexists.
Qed.

Lemma run_puts_return (p : CachePolicy K) puts : ∀ m,
  honours_contract p →
  unlocked m → policy_ (self m) = Some p →
  Forall is_put_or_release puts →
  ∃ rs m', run puts m = Returns (rs, m').
Proof.
  induction puts as [|a puts IH]; intros m Hc Hm Hp Hall.
  - rewrite run_nil. by eexists _, _.
  - apply Forall_cons in Hall as [Ha Hall]. rewrite run_cons.
    assert (∃ r m1, perform a m = Returns (r, m1)) as (r & m1 & Hperf).
    { destruct a; try done.
      - destruct (Put_returns key val m p) as [m1 Hput]; [done..|].
        unfold perform, mbind, Prog_bind. rewrite Hput. by eexists _, _.
      - by eexists _, _. }
    rewrite Hperf.
    destruct (perform_policy a m r m1 Hm Hperf) as [Hpol _].
    destruct (IH m1) as (rs & m' & ->); [done| | |done|].
    + by eapply perform_unlocked.
    + rewrite Hpol. by destruct a.
    + by eexists _, _.
Qed.

Lemma fresh_sound cap ev m0 :
  0 < cap → fresh (K := K) cap ev = Returns m0 → sound m0.
Proof.
  intros Hpos Hfresh. unfold fresh, ObjectCache_new in Hfresh.
  rewrite bind_Returns in Hfresh. unfold mret, Outcome_ret in Hfresh. simplify_eq.
  unfold sound, unlocked, unique_keys. cbn.
  split; [done|]. split; [apply NoDup_nil_2|]. split; [done|]. split; [lia|done].
Qed.

(** C2.  Take a cache constructed with a positive capacity.  Whatever a
    client program does with it (any sequence of [Put] calls in particular,
    with objects losing their owners in between), provided the policies it
    installs honour the eviction contract, the table holds at most
    [capacity] entries when the program has returned.  And a program that
    installs such a policy and then only calls [Put] does return. *)
Theorem Put_keeps_size_within_capacity cap ev m0 :
  0 < cap →
  fresh cap ev = Returns m0 →
  (∀ actions rs m',
     Forall installs_sound_policies actions →
     run actions m0 = Returns (rs, m') →
     length (cache_ (self m')) ≤ cap) ∧
  (∀ p puts,
     honours_contract p →
     Forall is_put_or_release puts →
     ∃ rs m', run (CallSetPolicy (Some p) :: puts) m0 = Returns (rs, m')).
Proof.
  intros Hpos Hfresh. pose proof (fresh_sound cap ev m0 Hpos Hfresh) as Hsound.
  assert (Hcap : max_size_ (self m0) = cap).
  { unfold fresh, ObjectCache_new in Hfresh. rewrite bind_Returns in Hfresh.
    unfold mret, Outcome_ret in Hfresh. by simplify_eq. }
  split.
  - intros actions rs m' Hall Hrun.
    destruct (run_sound actions m0 rs m' Hall Hsound Hrun)
      as [(_ & _ & _ & Hle & _) Hmax].
    by rewrite <- Hcap, <- Hmax.
  - intros p puts Hc Hall. rewrite run_cons.
    destruct Hsound as (Hm & _).
    unfold perform, mbind, Prog_bind. rewrite SetPolicy_run by done.
    unfold mret, Prog_ret.
    destruct (run_puts_return p puts
                (with_policy (Some p) (after_call m0 (cache_ (self m0)) 0)))
      as (rs & m' & ->); [done..|].
    by eexists _, _.
Qed.

Lemma emplace_nil key e : emplace key e [] = [(key, e)].
Proof. apply Permutation_singleton_r, emplace_perm. Qed.

(** With [LRUPolicy] installed, a [Put] into a table of at most one entry
    leaves the new entry alone in the table, whatever [max_size_] is. *)
Lemma Put_LRU_small key val m :
  unlocked m →
  policy_ (self m) = Some LRUPolicy →
  length (cache_ (self m)) ≤ 1 →
  Put key val m = Returns (tt, after_call m [(key, put_entry val (env m))] 2).
Proof.
  intros Hm Hp Hlen. rewrite Put_run, Hp by done.
  pose proof (length_filter (unexpired (alive (env m))) (cache_ (self m))) as Hsw.
  assert (Evict LRUPolicy (filter (unexpired (alive (env m))) (cache_ (self m)))
          = Returns []) as ->.
  { destruct (filter _ _) as [|x t]; [done|].
    destruct (LRU_Evict_oldest (x :: t)) as (l1 & y & l2 & Ht & Hev & _);
      [simpl; lia|].
    change (Evict LRUPolicy (x :: t)) with (LRU_Evict (x :: t)). rewrite Hev.
    apply (f_equal length) in Ht. rewrite length_app in Ht. simpl in *.
    destruct l1, l2; simpl in *; try lia. done. }
  rewrite bind_Returns. unfold assign, end_. cbv zeta.
  rewrite decide_True by done. by rewrite emplace_nil.
Qed.

Lemma run_step a actions m r m1 rs m2 :
  perform a m = Returns (r, m1) →
  run actions m1 = Returns (rs, m2) →
  run (a :: actions) m = Returns (r :: rs, m2).
Proof. intros Hp Hr. by rewrite run_cons, Hp, Hr. Qed.

(** ** [Contains] *)

Lemma unique_keys_lookup key e t :
  unique_keys t → (key, e) ∈ t → t !! find key t = Some (key, e).
Proof.
  unfold unique_keys. intros Hdup Hin.
  apply list_elem_of_split in Hin as (l1 & l2 & ->).
  rewrite fmap_app, fmap_cons in Hdup. cbn [fst] in Hdup.
  apply NoDup_app in Hdup as (_ & Hdisj & _).
  assert (key ∉ l1.*1) as Hnin.
  { intros Hk. apply (Hdisj key Hk). apply list_elem_of_here. }
  rewrite find_first by done. by apply list_lookup_middle.
Qed.

Lemma run_Contains keys : ∀ m,
  unlocked m →
  ∃ rs m', run (CallContains <$> keys) m = Returns (rs, m') ∧
           self m' = self m ∧
           alive (env m') = alive (env m) ∧
           clock (env m') = clock (env m) ∧
           reads (env m') = reads (env m).
Proof.
  induction keys as [|key keys IH]; intros m Hm.
  - exists [], m. by rewrite fmap_nil, run_nil.
  - rewrite fmap_cons, run_cons. unfold perform, mbind, Prog_bind.
    rewrite Contains_run by done. unfold mret, Prog_ret.
    destruct (IH (after_call m (cache_ (self m)) 0)) as
      (rs & m' & -> & Hself & Halive & Hclock & Hreads); [done|].
    eexists _, _. split; [done|]. by rewrite Hself, after_call_self.
Qed.

(** C6.  Called with the mutex free on a table with unique keys, [Contains]
    returns [true] exactly when the table has an entry for the key whose
    object is still alive.  The cache object it leaves is the one it found:
    same table, timestamps included, same policy; it takes no clock reading
    and no object's liveness changes.  Hence, after any number of calls of
    [Contains], [LRUPolicy::Evict] does to the table what it would have
    done before them. *)
Theorem Contains_spec key m :
  unlocked m →
  unique_keys (cache_ (self m)) →
  (∃ b m',
     Contains key m = Returns (b, m') ∧
     (b = true ↔
        ∃ e, (key, e) ∈ cache_ (self m) ∧
             is_expired (alive (env m)) (value e) = false) ∧
     self m' = self m ∧
     alive (env m') = alive (env m) ∧
     clock (env m') = clock (env m) ∧
     reads (env m') = reads (env m)) ∧
  (∀ keys, ∃ rs m',
     run (CallContains <$> keys) m = Returns (rs, m') ∧
     self m' = self m ∧
     Evict LRUPolicy (cache_ (self m')) = Evict LRUPolicy (cache_ (self m))).
Proof.
  intros Hm Hdup. split.
  - eexists _, _. split; [by apply Contains_run|].
    split; [|by rewrite after_call_self].
    pose proof (find_le key (cache_ (self m))) as Hle.
    destruct (cache_ (self m) !! find key (cache_ (self m))) as [[k e0]|] eqn:Hx.
    + pose proof (lookup_lt_Some _ _ _ Hx) as Hlt.
      destruct (find_lookup key (cache_ (self m)) Hlt) as [e1 He1].
      rewrite He1 in Hx. simplify_eq. cbn [snd]. split.
      * intros Hb. exists e0. split; [by eapply list_elem_of_lookup_2|].
        by destruct (is_expired _ _).
      * intros (e & Hin & Hexp). apply unique_keys_lookup in Hin; [|done].
        rewrite He1 in Hin. simplify_eq. by rewrite Hexp.
    + split; [done|]. intros (e & Hin & _).
      apply unique_keys_lookup in Hin; [|done]. congruence.
  - intros keys. destruct (run_Contains keys m Hm) as (rs & m' & Hrun & Hself & _).
    exists rs, m'. by rewrite Hself.
Qed.

(** ** [Clear] *)

Lemma run_keeps_policy actions : ∀ m rs m',
  unlocked m →
  Forall (λ a, ¬ is_set_policy a) actions →
  run actions m = Returns (rs, m') →
  unlocked m' ∧ policy_ (self m') = policy_ (self m).
Proof.
  induction actions as [|a actions IH]; intros m rs m' Hm Hall Hrun.
  - rewrite run_nil in Hrun. by simplify_eq.
  - apply Forall_cons in Hall as [Ha Hall].
    apply run_cons_inv in Hrun as (r & m1 & rs' & Hp & Hrest & _).
    destruct (perform_policy a m r m1 Hm Hp) as [Hpol _].
    destruct (IH m1 rs' m') as [Hm' ->]; [by eapply perform_unlocked|done..|].
    split; [done|]. rewrite Hpol. by destruct a.
Qed.

(** C10.  Called with the mutex free, [Clear] returns, empties the table
    and keeps the policy of the cache.  No later action other than
    [SetPolicy] changes the policy either; and when a policy [p] was
    installed before [Clear], every later [Put] sweeps the table and then
    hands it to the [Evict] of that same [p] before it stores its entry. *)
Theorem Clear_keeps_policy m :
  unlocked m →
  ∃ m1,
    Clear m = Returns (tt, m1) ∧
    cache_ (self m1) = [] ∧
    policy_ (self m1) = policy_ (self m) ∧
    ∀ actions rs m2,
      Forall (λ a, ¬ is_set_policy a) actions →
      run actions m1 = Returns (rs, m2) →
      policy_ (self m2) = policy_ (self m) ∧
      ∀ p key val,
        policy_ (self m) = Some p →
        Put key val m2 =
          t1 ← Evict p (filter (unexpired (alive (env m2))) (cache_ (self m2)));
          mret (tt, after_call m2 (assign key (put_entry val (env m2)) t1) 2).
Proof.
  intros Hm. exists (after_call m [] 0).
  split; [by apply Clear_run|]. split; [done|]. split; [done|].
  intros actions rs m2 Hall Hrun.
  destruct (run_keeps_policy actions (after_call m [] 0) rs m2) as [Hm2 Hpol];
    [done..|].
  split; [done|]. intros p key val Hp.
  rewrite Put_run by done. by rewrite Hpol; cbn [after_call self policy_]; rewrite Hp.
Qed.

(** ** The lock *)



(** C9.  [CleanupExpired], a public method, returns from every state,
    whether the mutex is held or not, with the table swept and without a
    single operation on the mutex: the log of lock events is the one it
    found. *)
Theorem CleanupExpired_takes_no_lock m :
  ∃ m',
    CleanupExpired m = Returns (tt, m') ∧
    cache_ (self m') = filter (unexpired (alive (env m))) (cache_ (self m)) ∧
    mutex_ (self m') = mutex_ (self m) ∧
    lock_log (env m') = lock_log (env m).
Proof.
  eexists. split; [apply CleanupExpired_eq|]. done.
Qed.

(** ** Construction *)

(** C7, as amended.  The constructor never fails: for every [max_size],
    zero included, it returns a cache with an empty table, no policy, a
    free mutex and [max_size] stored in [max_size_]. *)
Theorem ObjectCache_new_always_succeeds (max_size : nat) :
  ObjectCache_new (K := K) max_size = Returns (mkCache [] None false max_size).
Proof. reflexivity. Qed.

End Properties.

(** * The scenario of [TestLRU] *)

Section TestLRU.

Context {ord : InsertionOrder string}.

(** One action of a client program run by hand. *)
Local Ltac method :=
  unfold perform, mbind, Prog_bind;
  first
    [ rewrite SetPolicy_run by reflexivity
    | rewrite Put_LRU_small by (reflexivity || (cbn; lia))
    | rewrite Get_run by reflexivity
    | rewrite Size_run by reflexivity
    | rewrite Contains_run by reflexivity
    | idtac ];
  reflexivity.

Local Ltac client_program :=
  repeat (eapply run_step; [method|]); apply run_nil.

(** C1.  On a cache of capacity 2 with [LRUPolicy], [Put("key1", res1)]
    followed by [Put("key2", res2)], both objects alive: the second [Put]
    finds one entry after its sweep, fewer than the capacity, and yet
    "key1" is evicted.  [Size] answers 1 and [Contains("key1")] answers
    [false]; the table holds "key2" alone. *)
Theorem Put_evicts_below_capacity :
  ∃ m',
    run [CallSetPolicy (Some LRUPolicy);
         CallPut "key1" res1; CallPut "key2" res2;
         CallSize; CallContains "key1"; CallContains "key2"]
        (test_cache 2)
    = Returns ([Done; Done; Done; Count 1; Answer false; Answer true], m') ∧
    cache_ (self m') = [("key2", mkEntry res2 2 3)] ∧
    max_size_ (self m') = 2.
Proof.
  eexists. split; [client_program|]. done.
Qed.

(** C3.  The scenario of [TestLRU] on a cache of capacity 2 with
    [LRUPolicy], the three objects alive throughout:
    [Put(a, v1); Put(b, v2); Get(a); Put(c, v3)].  [Get(a)] already finds
    nothing, since [Put(b, v2)] has evicted [a]; in the end [Contains]
    answers [false] for [a], [false] for [b] and [true] for [c]. *)
Theorem TestLRU_keeps_only_the_last_key :
  ∃ m',
    run [CallSetPolicy (Some LRUPolicy);
         CallPut "a" res1; CallPut "b" res2; CallGet "a"; CallPut "c" res3;
         CallContains "a"; CallContains "b"; CallContains "c"]
        (test_cache 2)
    = Returns ([Done; Done; Done; Handle None; Done;
                Answer false; Answer false; Answer true], m') ∧
    cache_ (self m') = [("c", mkEntry res3 4 5)].
Proof.
  eexists. split; [client_program|]. done.
Qed.

(** Without a policy, the first [Put] into a new cache erases [begin()] of
    an empty table. *)
Lemma Put_without_policy_undefined :
  run [CallPut "key1" res1] (test_cache 2) = Undefined.
Proof. reflexivity. Qed.

(** The two fixtures are states of [TestObjectsDeletedAfterScope]. *)
Lemma live_cache_reachable :
  run [CallSetPolicy (Some LRUPolicy); CallPut "key1" res1] (test_cache 2)
  = Returns ([Done; Done], live_cache).
Proof. client_program. Qed.

Lemma stale_cache_reachable :
  run [CallSetPolicy (Some LRUPolicy); CallPut "key1" res1; CallPut "temp" temp;
       OwnerReleases 2]
      (test_cache 2)
  = Returns ([Done; Done; Done; Done], stale_cache).
Proof. client_program. Qed.

(** What [TestObjectsDeletedAfterScope] prints. *)
Lemma TestObjectsDeletedAfterScope_output :
  ∃ m',
    run [CallSize; CallContains "key1"; CallContains "temp"; CallGet "temp"]
        stale_cache
    = Returns ([Count 1; Answer false; Answer false; Handle None], m').
Proof. eexists. client_program. Qed.

End TestLRU.

(** * The engine beyond the claims *)

Section Engine.

Context {K : Type} `{EqDecision K} {ord : InsertionOrder K}.

Implicit Types (t : Table K) (key : K) (e : CacheEntry) (m : Machine K).

(** ** [operator[]] *)

Lemma find_insert_key key t : ∀ i k e0 e',
  t !! i = Some (k, e0) → find key (<[i := (k, e')]> t) = find key t.
Proof.
  induction t as [|[k1 e1] t IH]; intros i k e0 e' Hi; [done|].
  destruct i as [|i]; simpl in *.
  - by simplify_eq.
  - case_decide; [done|]. f_equal. by eapply IH.
Qed.

Lemma elem_of_assign key e t x :
  x ∈ assign key e t → x = (key, e) ∨ x ∈ t.
Proof.
  unfold assign, end_. cbv zeta. case_decide as Hit.
  - rewrite emplace_perm. by rewrite elem_of_cons.
  - intros Hx. apply list_elem_of_lookup in Hx as [i Hi].
    apply list_lookup_insert_Some in Hi as [(_ & Hx & _)|[_ Hi]]; [by left|].
    right. by eapply list_elem_of_lookup_2.
Qed.

Lemma lookup_assign key e t :
  assign key e t !! find key (assign key e t) = Some (key, e).
Proof.
  pose proof (find_le key t) as Hle.
  unfold assign, end_. cbv zeta. case_decide as Hit.
  - apply find_end_absent in Hit.
    assert (Hin : (key, e) ∈ emplace key e t)
      by (rewrite emplace_perm; apply list_elem_of_here).
    destruct (find_lookup key (emplace key e t)) as [e1 He1].
    { apply find_present. apply list_elem_of_fmap. by exists (key, e). }
    rewrite He1. pose proof (list_elem_of_lookup_2 _ _ _ He1) as Hin1.
    rewrite emplace_perm in Hin1. apply elem_of_cons in Hin1 as [?|Hin1]; [by simplify_eq|].
    destruct Hit. apply list_elem_of_fmap. by exists (key, e1).
  - destruct (find_lookup key t) as [e0 He0]; [lia|].
    rewrite (find_insert_key key t _ key e0 e) by done.
    apply list_lookup_insert_eq. lia.
Qed.

(** X11.  [cache_[key] = e] on the table: afterwards the entry found under
    [key] is [e]; the entries of all other keys are the ones there were; and
    the table grows by one exactly when [key] was not in it. *)
Theorem assign_spec key e t :
  assign key e t !! find key (assign key e t) = Some (key, e) ∧
  (∀ k' e', k' ≠ key → (k', e') ∈ assign key e t ↔ (k', e') ∈ t) ∧
  length (assign key e t)
  = if decide (key ∈ t.*1) then length t else S (length t).
Proof.
  split; [apply lookup_assign|]. split.
  - intros k' e' Hne. split.
    + intros [?|?]%elem_of_assign; [by simplify_eq|done].
    + unfold assign, end_. cbv zeta. intros Hin. case_decide as Hit.
      * rewrite emplace_perm. by apply list_elem_of_further.
      * apply list_elem_of_lookup in Hin as [i Hi].
        apply list_elem_of_lookup. exists i.
        rewrite list_lookup_insert_ne; [done|]. intros <-.
        pose proof (find_le key t).
        destruct (find_lookup key t) as [e0 He0]; [lia|]. congruence.
  - pose proof (find_le key t). unfold assign, end_. cbv zeta.
    case_decide as Hit; case_decide as Hin.
    + by apply find_end_absent in Hit.
    + by rewrite emplace_perm.
    + by rewrite length_insert.
    + apply find_absent in Hin. lia.
Qed.

(** ** [Put], then a lookup *)

Lemma Put_inv key val m m' :
  unlocked m →
  Put key val m = Returns (tt, m') →
  ∃ t1, m' = after_call m (assign key (put_entry val (env m)) t1) 2.
Proof.
  intros Hm Hput. rewrite Put_run in Hput by done.
  destruct (match policy_ (self m) with Some _ => _ | None => _ end)
    as [t1|]; [|done].
  rewrite bind_Returns in Hput. unfold mret, Outcome_ret in Hput.
  exists t1. by simplify_eq.
Qed.

(** X1.  Round trip.  When [Put(key, val)] has returned and [val] points to
    an object [o] that is alive, [Contains(key)] answers [true] and
    [Get(key)] returns a strong pointer to [o], leaving the table at its
    size. *)
Theorem Put_then_Get_and_Contains key (o : Obj) m m' :
  unlocked m →
  alive (env m) o = true →
  Put key (Some o) m = Returns (tt, m') →
  (∃ m1, Contains key m' = Returns (true, m1)) ∧
  (∃ m2, Get key m' = Returns (Some (Some o), m2) ∧
         length (cache_ (self m2)) = length (cache_ (self m'))).
Proof.
  intros Hm Halive Hput. destruct (Put_inv key (Some o) m m' Hm Hput) as [t1 ->].
  pose proof (lookup_assign key (put_entry (Some o) (env m)) t1) as Hlook.
  pose proof (lookup_lt_Some _ _ _ Hlook) as Hlt.
  split.
  - eexists. rewrite Contains_run by done.
    cbn [after_call self env cache_ alive]. rewrite Hlook.
    cbn [snd put_entry value is_expired]. by rewrite Halive.
  - eexists. rewrite Get_run by done. cbv zeta.
    cbn [after_call self env cache_ alive]. rewrite decide_False by lia.
    rewrite Hlook. cbn [snd fst put_entry value is_expired]. rewrite Halive.
    cbn [negb]. split; [done|]. cbn [after_call self cache_].
    by rewrite length_insert.
Qed.

(** X2.  A null pointer.  When [Put(key, nullptr)] has returned, the entry
    it stored counts as expired at once: [Contains(key)] answers [false],
    and [Get(key)] returns empty and takes one entry out of the table. *)
Theorem Put_null_is_expired key m m' :
  unlocked m →
  Put key None m = Returns (tt, m') →
  (∃ m1, Contains key m' = Returns (false, m1)) ∧
  (∃ m2, Get key m' = Returns (None, m2) ∧
         S (length (cache_ (self m2))) = length (cache_ (self m'))).
Proof.
  intros Hm Hput. destruct (Put_inv key None m m' Hm Hput) as [t1 ->].
  pose proof (lookup_assign key (put_entry None (env m)) t1) as Hlook.
  pose proof (lookup_lt_Some _ _ _ Hlook) as Hlt.
  split.
  - eexists. rewrite Contains_run by done.
    cbn [after_call self env cache_ alive]. by rewrite Hlook.
  - eexists. rewrite Get_run by done. cbv zeta.
    cbn [after_call self env cache_ alive]. rewrite decide_False by lia.
    rewrite Hlook. cbn [snd fst put_entry value is_expired].
    split; [done|]. cbn [after_call self cache_].
    rewrite length_delete by (by apply lookup_lt_is_Some). lia.
Qed.

(** ** How many entries the cache ever holds *)

Lemma table_change_at_most_one a m t' :
  (∀ q, policy_ (self m) = Some q → honours_contract q) →
  length (cache_ (self m)) ≤ 1 →
  table_change a m t' →
  length t' ≤ 1.
Proof.
  intros Hpol Hle Hch. destruct m as [[t p mx n] ev].
  apply (table_change_capacity a (mkMachine (mkCache t p mx 1) ev) t');
    [done|simpl; lia|done|done].
Qed.

Lemma run_at_most_one actions : ∀ m rs m',
  Forall installs_sound_policies actions →
  unlocked m →
  (∀ q, policy_ (self m) = Some q → honours_contract q) →
  length (cache_ (self m)) ≤ 1 →
  run actions m = Returns (rs, m') →
  unlocked m' ∧
  (∀ q, policy_ (self m') = Some q → honours_contract q) ∧
  length (cache_ (self m')) ≤ 1.
Proof.
  induction actions as [|a actions IH]; intros m rs m' Hall Hm Hpol Hle Hrun.
  - rewrite run_nil in Hrun. by simplify_eq.
  - apply Forall_cons in Hall as [Ha Hall].
    apply run_cons_inv in Hrun as (r & m1 & rs' & Hp & Hrest & _).
    destruct (perform_after a m r m1 Hm Hp) as (t' & Hself & Hch).
    apply (IH m1 rs' m'); [done|by eapply perform_unlocked| | |done].
    + rewrite Hself. cbn [policy_]. intros q Hq.
      destruct a; try (by apply Hpol). simpl in Hq. subst. exact Ha.
    + rewrite Hself. cbn [cache_]. by eapply table_change_at_most_one.
Qed.

(** X3.  Whatever [max_size] the cache was constructed with, and whatever a
    client program does (installing only policies that honour the eviction
    contract), the table never holds more than one entry when the program
    has returned: every [Put] evicts before it inserts. *)
Theorem at_most_one_entry max_size ev m0 actions rs m' :
  fresh max_size ev = Returns m0 →
  Forall installs_sound_policies actions →
  run actions m0 = Returns (rs, m') →
  length (cache_ (self m')) ≤ 1.
Proof.
  intros Hfresh Hall Hrun. unfold fresh, ObjectCache_new in Hfresh.
  rewrite bind_Returns in Hfresh. unfold mret, Outcome_ret in Hfresh. simplify_eq.
  destruct (run_at_most_one actions (mkMachine (mkCache [] None false max_size) ev)
              rs m' Hall) as (_ & _ & Hle);
    [done|done|simpl; lia|done|done].
Qed.

Lemma Put_singleton key val m p :
  unlocked m →
  policy_ (self m) = Some p → honours_contract p →
  length (cache_ (self m)) ≤ 1 →
  Put key val m = Returns (tt, after_call m [(key, put_entry val (env m))] 2).
Proof.
  intros Hm Hp [Hnil Hcons] Hlen. rewrite Put_run, Hp by done.
  pose proof (length_filter (unexpired (alive (env m))) (cache_ (self m))) as Hsw.
  assert (Evict p (filter (unexpired (alive (env m))) (cache_ (self m)))
          = Returns []) as ->.
  { destruct (filter _ _) as [|x t]; [done|].
    destruct (Hcons (x :: t)) as (t' & -> & Hone); [done|].
    apply removes_one_length in Hone. simpl in *.
    destruct t'; [done|simpl in *; lia]. }
  rewrite bind_Returns. unfold assign, end_. cbv zeta.
  rewrite decide_True by done. by rewrite emplace_nil.
Qed.

(** X4.  In a cache that a client program has constructed and used, with
    policies that honour the eviction contract, a [Put] made while a policy
    is installed returns and leaves its own entry, stamped with the two
    clock readings it took, as the only entry of the table. *)
Theorem Put_leaves_only_its_key max_size ev m0 actions rs m key val :
  fresh max_size ev = Returns m0 →
  Forall installs_sound_policies actions →
  run actions m0 = Returns (rs, m) →
  is_Some (policy_ (self m)) →
  Put key val m = Returns (tt, after_call m [(key, put_entry val (env m))] 2).
Proof.
  intros Hfresh Hall Hrun [p Hp]. unfold fresh, ObjectCache_new in Hfresh.
  rewrite bind_Returns in Hfresh. unfold mret, Outcome_ret in Hfresh. simplify_eq.
  destruct (run_at_most_one actions (mkMachine (mkCache [] None false max_size) ev)
              rs m Hall) as (Hm & Hpol & Hle);
    [done|done|simpl; lia|done|].
  eapply Put_singleton; eauto.
Qed.

(** X5.  [Put] with no policy installed, the mutex free.  If the sweep
    leaves the table empty, the call erases [begin()] of an empty map:
    undefined behaviour.  Otherwise it drops the first unexpired entry in
    iteration order, whatever the capacity, and stores its entry in what
    remains. *)
Theorem Put_without_policy key val m :
  unlocked m →
  policy_ (self m) = None →
  (filter (unexpired (alive (env m))) (cache_ (self m)) = [] →
     Put key val m = Undefined) ∧
  (∀ x t1,
     filter (unexpired (alive (env m))) (cache_ (self m)) = x :: t1 →
     Put key val m
     = Returns (tt, after_call m (assign key (put_entry val (env m)) t1) 2)).
Proof.
  intros Hm Hp. split.
  - intros Hsw. by rewrite Put_run, Hp, Hsw by done.
  - intros x t1 Hsw. by rewrite Put_run, Hp, Hsw by done.
Qed.

(** ** [Clear] and [Size] *)

(** X6.  After [Clear], [Size] answers 0, and for every key [Contains]
    answers [false] and [Get] returns empty; the table is still empty
    afterwards. *)
Theorem Clear_then_empty key m :
  unlocked m →
  ∃ m',
    run [CallClear; CallSize; CallContains key; CallGet key] m
    = Returns ([Done; Count 0; Answer false; Handle None], m') ∧
    cache_ (self m') = [].
Proof.
  intros Hm. eexists. split.
  - eapply run_step.
    { unfold perform, mbind, Prog_bind. by rewrite Clear_run. }
    eapply run_step.
    { unfold perform, mbind, Prog_bind. by rewrite Size_run. }
    eapply run_step.
    { unfold perform, mbind, Prog_bind. by rewrite Contains_run. }
    eapply run_step; [|apply run_nil].
    unfold perform, mbind, Prog_bind. by rewrite Get_run.
  - done.
Qed.

(** X7.  [Size] counts entries that are expired but not yet swept.  Take
    an entry of the table, with unique keys, whose object is [o]: once the
    owner of [o] has let go, [Size] still answers the full length of the
    table, while [Contains] answers [false] for the key. *)
Theorem Size_counts_unswept key e (o : Obj) m :
  unlocked m →
  unique_keys (cache_ (self m)) →
  (key, e) ∈ cache_ (self m) →
  value e = Some o →
  ∃ m',
    run [OwnerReleases o; CallSize; CallContains key] m
    = Returns ([Done; Count (length (cache_ (self m))); Answer false], m') ∧
    cache_ (self m') = cache_ (self m).
Proof.
  intros Hm Hdup Hin Ho.
  pose proof (unique_keys_lookup key e _ Hdup Hin) as Hlook.
  eexists. split.
  - eapply run_step; [reflexivity|].
    eapply run_step.
    { unfold perform, mbind, Prog_bind. by rewrite Size_run. }
    eapply run_step; [|apply run_nil].
    unfold perform, mbind, Prog_bind. rewrite Contains_run by done.
    cbn [after_call self env cache_ alive]. rewrite Hlook. cbn [snd].
    rewrite Ho. cbn [is_expired]. by rewrite decide_True.
  - done.
Qed.

(** ** The lock *)


(** ** [LRUPolicy::Evict] and recency *)

(** X9.  The most recently used entry survives.  If an entry of a table of
    two or more has a [last_accessed_at] strictly later than that of every
    other entry, [LRUPolicy::Evict] removes one entry and this one is still
    in the table. *)
Theorem LRUPolicy_spares_most_recent key e (l1 l2 : Table K) :
  l1 ++ l2 ≠ [] →
  Forall (λ x, (last_accessed_at x.2 < last_accessed_at e)%Z) (l1 ++ l2) →
  ∃ t', Evict LRUPolicy (l1 ++ (key, e) :: l2) = Returns t' ∧
        (key, e) ∈ t' ∧
        length (l1 ++ (key, e) :: l2) = S (length t').
Proof.
  intros Hne Hlater.
  destruct (LRU_Evict_oldest (l1 ++ (key, e) :: l2))
    as (k1 & y & k2 & Ht & Hev & Hbefore & Hafter).
  { rewrite length_app. simpl. lia. }
  exists (k1 ++ k2). split; [exact Hev|]. split.
  - assert (Hin : (key, e) ∈ k1 ++ y :: k2).
    { rewrite <- Ht. apply elem_of_app. right. apply list_elem_of_here. }
    apply elem_of_app in Hin as [Hin|Hin]; [apply elem_of_app; by left|].
    apply elem_of_cons in Hin as [Hy|Hin]; [|apply elem_of_app; by right].
    subst y. exfalso.
    assert (Hperm : l1 ++ l2 ≡ₚ k1 ++ k2).
    { apply (Permutation_cons_inv (a := (key, e))).
      rewrite !Permutation_middle. by rewrite Ht. }
    destruct (l1 ++ l2) as [|x rest] eqn:Hrest; [done|].
    apply Forall_cons in Hlater as [Hx _].
    assert (Hxin : x ∈ k1 ++ k2) by (rewrite <- Hperm; apply list_elem_of_here).
    apply elem_of_app in Hxin as [Hxin|Hxin].
    + rewrite Forall_forall in Hbefore. specialize (Hbefore x Hxin). simpl in *. lia.
    + rewrite Forall_forall in Hafter. specialize (Hafter x Hxin). simpl in *. lia.
  - rewrite Ht, !length_app. simpl. lia.
Qed.

(** ** Timestamps *)

Lemma stamp_ok_later c r r' (x : K * CacheEntry) :
  r ≤ r' → stamp_ok c r x → stamp_ok c r' x.
Proof.
  intros Hr (i & j & Hij & Hj & Hc & Ha). exists i, j. repeat split; [done|lia|done..].
Qed.

Lemma perform_stamped a m r m' :
  unlocked m →
  (∀ q, policy_ (self m) = Some q → honours_contract q) →
  stamped m →
  perform a m = Returns (r, m') →
  stamped m' ∧ clock (env m') = clock (env m).
Proof.
  intros Hm Hpol Hst Hp. apply perform_inv in Hp. unfold stamped in *.
  destruct a.
  - destruct Hp as [Hp _]. rewrite SetPolicy_run in Hp by done. by simplify_eq.
  - destruct Hp as [Hp _]. rewrite Put_run in Hp by done.
    destruct (match policy_ (self m) with Some _ => _ | None => _ end)
      as [t1|] eqn:Hev; [|done].
    rewrite bind_Returns in Hp. unfold mret, Outcome_ret in Hp. simplify_eq.
    split; [|done]. cbn [after_call self env cache_ clock reads].
    apply eviction_step in Hev as [Hsub _]; [|done].
    apply Forall_forall. intros x [->|Hx]%elem_of_assign.
    + exists (reads (env m)), (S (reads (env m))). repeat split; lia.
    + rewrite Forall_forall in Hst.
      apply (stamp_ok_later _ (reads (env m))); [lia|]. apply Hst.
      eapply elem_of_sublist in Hx; [|done].
      by apply list_elem_of_filter in Hx as [_ ?].
  - destruct Hp as (h & Hp & _). rewrite Get_run in Hp by done. cbv zeta in Hp.
    case_decide; [by simplify_eq|].
    destruct (cache_ (self m) !! _) as [[k e]|] eqn:Hx; [|done].
    destruct (is_expired _ _); simplify_eq; (split; [|done]);
      cbn [after_call self env cache_ clock reads fst snd].
    + by apply Forall_delete.
    + apply Forall_insert.
      * eapply Forall_impl; [done|]. intros x. apply stamp_ok_later. lia.
      * rewrite Forall_forall in Hst.
        destruct (Hst (k, e)) as (i & j & Hij & Hj & Hc & Ha);
          [by eapply list_elem_of_lookup_2|].
        exists i, (reads (env m)). repeat split; [lia|lia|done].
  - destruct Hp as [Hp _]. rewrite CleanupExpired_eq in Hp. simplify_eq.
    split; [|done]. cbn [with_cache self env cache_].
    apply Forall_forall. intros x Hx. rewrite Forall_forall in Hst.
    apply Hst. by apply list_elem_of_filter in Hx as [_ ?].
  - destruct Hp as (n & Hp & _). rewrite Size_run in Hp by done. by simplify_eq.
  - destruct Hp as [Hp _]. rewrite Clear_run in Hp by done. simplify_eq.
    split; [|done]. apply Forall_nil_2.
  - destruct Hp as (b & Hp & _). rewrite Contains_run in Hp by done. by simplify_eq.
  - destruct Hp as [Hp _]. unfold release in Hp. by simplify_eq.
Qed.

Lemma run_stamped actions : ∀ m rs m',
  Forall installs_sound_policies actions →
  unlocked m →
  (∀ q, policy_ (self m) = Some q → honours_contract q) →
  stamped m →
  run actions m = Returns (rs, m') →
  stamped m' ∧ clock (env m') = clock (env m).
Proof.
  induction actions as [|a actions IH]; intros m rs m' Hall Hm Hpol Hst Hrun.
  - rewrite run_nil in Hrun. by simplify_eq.
  - apply Forall_cons in Hall as [Ha Hall].
    apply run_cons_inv in Hrun as (r & m1 & rs' & Hp & Hrest & _).
    destruct (perform_stamped a m r m1 Hm Hpol Hst Hp) as [Hst1 Hclock].
    destruct (perform_policy a m r m1 Hm Hp) as [Hpol1 _].
    rewrite <- Hclock.
    apply (IH m1 rs' m'); [done|by eapply perform_unlocked| |done|done].
    rewrite Hpol1. intros q Hq.
    destruct a; try (by apply Hpol). simpl in Hq. subst. exact Ha.
Qed.

(** X10.  In a cache that a client program has constructed and used, with
    policies that honour the eviction contract, every [created_at] and
    [last_accessed_at] in the table is a reading that [steady_clock::now()]
    has given during the program, the one behind [created_at] first; with a
    clock that never goes back, [created_at <= last_accessed_at] holds for
    every entry. *)
Theorem timestamps_in_order max_size ev m0 actions rs m' :
  fresh max_size ev = Returns m0 →
  steady (clock ev) →
  Forall installs_sound_policies actions →
  run actions m0 = Returns (rs, m') →
  stamped m' ∧
  Forall (λ x : K * CacheEntry, (created_at x.2 ≤ last_accessed_at x.2)%Z)
         (cache_ (self m')).
Proof.
  intros Hfresh Hsteady Hall Hrun. unfold fresh, ObjectCache_new in Hfresh.
  rewrite bind_Returns in Hfresh. unfold mret, Outcome_ret in Hfresh. simplify_eq.
  destruct (run_stamped actions (mkMachine (mkCache [] None false max_size) ev)
              rs m' Hall) as [Hst Hclock];
    [done|done|apply Forall_nil_2|done|].
  split; [done|]. eapply Forall_impl; [exact Hst|].
  intros x (i & j & Hij & _ & -> & ->). rewrite Hclock. by apply Hsteady.
Qed.

(** ** [SetPolicy] *)

(** X12.  A policy takes effect at the next [Put].  After [SetPolicy(p)],
    whatever policy was installed before, [Put] sweeps the table and hands
    it to [p]: when [p]'s [Evict] returns [t1] from the swept table, the
    table after the [Put] is [t1] with the new entry stored under [key], and
    [p] is still the policy. *)
Theorem SetPolicy_takes_effect_on_next_Put (p : CachePolicy K) key val m t1 :
  unlocked m →
  Evict p (filter (unexpired (alive (env m))) (cache_ (self m))) = Returns t1 →
  ∃ m',
    run [CallSetPolicy (Some p); CallPut key val] m = Returns ([Done; Done], m') ∧
    cache_ (self m') = assign key (put_entry val (env m)) t1 ∧
    policy_ (self m') = Some p.
Proof.
  intros Hm Hev. eexists. split.
  - eapply run_step.
    { unfold perform, mbind, Prog_bind. by rewrite SetPolicy_run. }
    eapply run_step; [|apply run_nil].
    unfold perform, mbind, Prog_bind. rewrite Put_run by done.
    cbn [with_policy after_call self env policy_ cache_ alive].
    by rewrite Hev.
  - done.
Qed.

(** ** The sweep and the lookups *)

Lemma Contains_answer_true live key t :
  unique_keys t →
  match t !! find key t with
  | Some x => negb (is_expired live (value x.2))
  | None => false
  end = true ↔
  ∃ e, (key, e) ∈ t ∧ is_expired live (value e) = false.
Proof.
  intros Hdup. pose proof (find_le key t) as Hle.
  destruct (t !! find key t) as [[k e0]|] eqn:Hx.
  - pose proof (lookup_lt_Some _ _ _ Hx) as Hlt.
    destruct (find_lookup key t Hlt) as [e1 He1].
    rewrite He1 in Hx. simplify_eq. cbn [snd]. split.
    + intros Hb. exists e0. split; [by eapply list_elem_of_lookup_2|].
      by destruct (is_expired _ _).
    + intros (e & Hin & Hexp). apply unique_keys_lookup in Hin; [|done].
      rewrite He1 in Hin. simplify_eq. by rewrite Hexp.
  - split; [done|]. intros (e & Hin & _).
    apply unique_keys_lookup in Hin; [|done]. congruence.
Qed.

(** X13.  Sweeping is invisible to [Contains]: on a table with unique keys,
    [Contains(key)] gives the same answer before and after
    [CleanupExpired], for every key. *)
Theorem CleanupExpired_invisible_to_Contains key m :
  unlocked m →
  unique_keys (cache_ (self m)) →
  ∃ b m1 m2 m3,
    Contains key m = Returns (b, m1) ∧
    CleanupExpired m = Returns (tt, m2) ∧
    Contains key m2 = Returns (b, m3).
Proof.
  intros Hm Hdup. eexists _, _, _, _.
  split; [by apply Contains_run|]. split; [apply CleanupExpired_eq|].
  rewrite Contains_run by done. cbn [with_cache self env cache_ alive].
  f_equal. f_equal.
  assert (Hdup' : unique_keys (filter (unexpired (alive (env m))) (cache_ (self m))))
    by (eapply sublist_unique_keys; [apply sublist_filter|done]).
  pose proof (Contains_answer_true (alive (env m)) key _ Hdup) as H1.
  pose proof (Contains_answer_true (alive (env m)) key _ Hdup') as H2.
  assert (Hiff : (∃ e, (key, e) ∈ cache_ (self m) ∧
                       is_expired (alive (env m)) (value e) = false) ↔
                 (∃ e, (key, e) ∈ filter (unexpired (alive (env m))) (cache_ (self m)) ∧
                       is_expired (alive (env m)) (value e) = false)).
  { split; intros (e & Hin & Hexp); exists e; (split; [|done]).
    - by apply list_elem_of_filter.
    - by apply list_elem_of_filter in Hin as [_ ?]. }
  rewrite <- Hiff, <- H1 in H2. clear H1 Hiff.
  match type of H2 with ?b2 = true ↔ ?b1 = true =>
    generalize dependent b2; generalize dependent b1 end.
  intros [] [] [? ?]; auto; symmetry; auto.
Qed.

(** ** Unique keys *)

(** X14.  Keys stay unique.  From a state with the mutex free, unique keys
    and a policy that honours the eviction contract (or none), every client
    program that installs only such policies leaves a table with unique
    keys: [Put] on a key that is there overwrites, it never duplicates. *)
Theorem run_keeps_keys_unique actions : ∀ m rs m',
  Forall installs_sound_policies actions →
  unlocked m →
  (∀ q, policy_ (self m) = Some q → honours_contract q) →
  unique_keys (cache_ (self m)) →
  run actions m = Returns (rs, m') →
  unique_keys (cache_ (self m')).
Proof.
  induction actions as [|a actions IH]; intros m rs m' Hall Hm Hpol Hdup Hrun.
  - rewrite run_nil in Hrun. by simplify_eq.
  - apply Forall_cons in Hall as [Ha Hall].
    apply run_cons_inv in Hrun as (r & m1 & rs' & Hp & Hrest & _).
    destruct (perform_after a m r m1 Hm Hp) as (t' & Hself & Hch).
    apply (IH m1 rs' m'); [done|by eapply perform_unlocked| | |done].
    + rewrite Hself. cbn [policy_]. intros q Hq.
      destruct a; try (by apply Hpol). simpl in Hq. subst. exact Ha.
    + rewrite Hself. cbn [cache_]. by eapply table_change_unique_keys.
Qed.

End Engine.

(** * Instances *)

Lemma live_cache_unique_keys : unique_keys (cache_ (self live_cache)).
Proof. apply NoDup_singleton. Qed.

Lemma Put_keeps_size_within_capacity_witness :
  ∃ rs m',
    run (ord := front_insertion)
        [CallSetPolicy (Some LRUPolicy); CallPut "key1" res1; CallPut "key2" res2]
        (test_cache 2)
    = Returns (rs, m') ∧
    length (cache_ (self m')) ≤ 2.
Proof.
  destruct (Put_keeps_size_within_capacity (ord := front_insertion)
              2 test_env (test_cache 2)) as [Hsafe Hlive];
    [lia|reflexivity|].
  destruct (Hlive LRUPolicy [CallPut "key1" res1; CallPut "key2" res2])
    as (rs & m' & Hrun);
    [apply LRUPolicy_honours_contract|repeat constructor|].
  exists rs, m'. split; [exact Hrun|].
  eapply Hsafe; [|exact Hrun].
  repeat constructor. apply LRUPolicy_honours_contract.
Defined.

Lemma Get_spec_witness :
  Get "key2" live_cache
    = Returns (None, after_call live_cache (cache_ (self live_cache)) 0) ∧
  Get "temp" stale_cache
    = Returns (None, after_call stale_cache [] 0) ∧
  Get "key1" live_cache
    = Returns (Some (Some 1),
               after_call live_cache [("key1", mkEntry (Some 1) 0 2)] 1).
Proof.
  split; [|split].
  - apply (proj1 (Get_spec "key2" live_cache eq_refl)).
    by intros ?%list_elem_of_singleton.
  - apply (proj1 (proj2 (Get_spec "temp" stale_cache eq_refl)
                    [] (mkEntry temp 2 3) []
                    eq_refl ltac:(apply not_elem_of_nil))).
    reflexivity.
  - apply (proj2 (proj2 (Get_spec "key1" live_cache eq_refl)
                    [] (mkEntry res1 0 1) []
                    eq_refl ltac:(apply not_elem_of_nil))
                 1 eq_refl eq_refl).
Defined.

Lemma Contains_spec_witness :
  (∃ b m',
     Contains "key1" live_cache = Returns (b, m') ∧
     (b = true ↔
        ∃ e, (("key1" : string), e) ∈ cache_ (self live_cache) ∧
             is_expired (alive (env live_cache)) (value e) = false) ∧
     self m' = self live_cache ∧
     alive (env m') = alive (env live_cache) ∧
     clock (env m') = clock (env live_cache) ∧
     reads (env m') = reads (env live_cache)) ∧
  (∀ keys, ∃ rs m',
     run (ord := front_insertion) (CallContains <$> keys) live_cache
       = Returns (rs, m') ∧
     self m' = self live_cache ∧
     Evict LRUPolicy (cache_ (self m')) = Evict LRUPolicy (cache_ (self live_cache))).
Proof.
  apply (Contains_spec (ord := front_insertion) "key1" live_cache);
    [reflexivity|apply live_cache_unique_keys].
Defined.

Lemma Clear_keeps_policy_witness :
  ∃ m1,
    Clear live_cache = Returns (tt, m1) ∧
    cache_ (self m1) = [] ∧
    policy_ (self m1) = policy_ (self live_cache) ∧
    ∀ actions rs m2,
      Forall (λ a, ¬ is_set_policy a) actions →
      run (ord := front_insertion) actions m1 = Returns (rs, m2) →
      policy_ (self m2) = policy_ (self live_cache) ∧
      ∀ p key val,
        policy_ (self live_cache) = Some p →
        Put (ord := front_insertion) key val m2 =
          t1 ← Evict p (filter (unexpired (alive (env m2))) (cache_ (self m2)));
          mret (tt, after_call m2
                      (assign (ord := front_insertion) key (put_entry val (env m2)) t1) 2).
Proof.
  apply (Clear_keeps_policy (ord := front_insertion) live_cache). reflexivity.
Defined.

(** C7, as stated, fails: constructing with capacity 0 does not fail. *)
Lemma ObjectCache_new_zero_succeeds : ¬ construction_fails (K := string) 0.
Proof.
  intros Hfails. by apply (Hfails (mkCache [] None false 0)).
Qed.

(** * Instances of the engine properties *)

Lemma Put_then_Get_and_Contains_witness :
  (∃ m1, Contains "key2"
           (after_call live_cache [("key2", put_entry (Some 2) (env live_cache))] 2)
         = Returns (true, m1)) ∧
  (∃ m2, Get "key2"
           (after_call live_cache [("key2", put_entry (Some 2) (env live_cache))] 2)
         = Returns (Some (Some 2), m2) ∧
         length (cache_ (self m2)) = 1).
Proof.
  apply (Put_then_Get_and_Contains (ord := front_insertion) "key2" 2 live_cache);
    [reflexivity|reflexivity|].
  apply Put_LRU_small; [reflexivity|reflexivity|cbn; lia].
Defined.

Lemma Put_null_is_expired_witness :
  (∃ m1, Contains "key2"
           (after_call live_cache [("key2", put_entry None (env live_cache))] 2)
         = Returns (false, m1)) ∧
  (∃ m2, Get "key2"
           (after_call live_cache [("key2", put_entry None (env live_cache))] 2)
         = Returns (None, m2) ∧
         S (length (cache_ (self m2))) = 1).
Proof.
  apply (Put_null_is_expired (ord := front_insertion) "key2" live_cache);
    [reflexivity|].
  apply Put_LRU_small; [reflexivity|reflexivity|cbn; lia].
Defined.

Lemma at_most_one_entry_witness :
  length (cache_ (self live_cache)) ≤ 1.
Proof.
  apply (at_most_one_entry (ord := front_insertion) 2 test_env (test_cache 2)
           [CallSetPolicy (Some LRUPolicy); CallPut "key1" res1]
           [Done; Done] live_cache);
    [reflexivity| |apply live_cache_reachable].
  repeat constructor. apply LRUPolicy_honours_contract.
Defined.

Lemma Put_leaves_only_its_key_witness :
  Put (ord := front_insertion) "key2" res2 live_cache
  = Returns (tt, after_call live_cache [("key2", put_entry res2 (env live_cache))] 2).
Proof.
  apply (Put_leaves_only_its_key (ord := front_insertion) 2 test_env (test_cache 2)
           [CallSetPolicy (Some LRUPolicy); CallPut "key1" res1]
           [Done; Done] live_cache);
    [reflexivity| |apply live_cache_reachable|by eexists].
  repeat constructor. apply LRUPolicy_honours_contract.
Defined.

Lemma Put_without_policy_witness :
  Put (ord := front_insertion) "key1" res1 (test_cache 2) = Undefined ∧
  Put (ord := front_insertion) "key2" res2 (with_policy None live_cache)
  = Returns (tt, after_call (with_policy None live_cache)
                   (assign (ord := front_insertion) "key2"
                      (put_entry res2 (env live_cache)) []) 2).
Proof.
  split.
  - apply (proj1 (Put_without_policy (ord := front_insertion)
                    "key1" res1 (test_cache 2) eq_refl eq_refl)).
    reflexivity.
  - apply (proj2 (Put_without_policy (ord := front_insertion)
                    "key2" res2 (with_policy None live_cache) eq_refl eq_refl)
                 ("key1", mkEntry res1 0 1) []).
    reflexivity.
Defined.

Lemma Clear_then_empty_witness :
  ∃ m',
    run (ord := front_insertion)
        [CallClear; CallSize; CallContains "key1"; CallGet "key1"] live_cache
    = Returns ([Done; Count 0; Answer false; Handle None], m') ∧
    cache_ (self m') = [].
Proof.
  apply (Clear_then_empty (ord := front_insertion) "key1" live_cache). reflexivity.
Defined.

Lemma Size_counts_unswept_witness :
  ∃ m',
    run (ord := front_insertion)
        [OwnerReleases 1; CallSize; CallContains "key1"] live_cache
    = Returns ([Done; Count 1; Answer false], m') ∧
    cache_ (self m') = cache_ (self live_cache).
Proof.
  apply (Size_counts_unswept (ord := front_insertion)
           "key1" (mkEntry res1 0 1) 1 live_cache);
    [reflexivity|apply live_cache_unique_keys|apply list_elem_of_here|reflexivity].
Defined.


Lemma LRUPolicy_spares_most_recent_witness :
  ∃ t',
    Evict LRUPolicy
      ([("a", mkEntry res1 0 5)] ++ ("b", mkEntry res2 1 9) :: [("c", mkEntry res3 2 7)])
    = Returns t' ∧
    (("b" : string), mkEntry res2 1 9) ∈ t' ∧
    length ([("a", mkEntry res1 0 5)] ++ ("b", mkEntry res2 1 9)
              :: [("c", mkEntry res3 2 7)]) = S (length t').
Proof.
  apply (LRUPolicy_spares_most_recent "b" (mkEntry res2 1 9)
           [("a", mkEntry res1 0 5)] [("c", mkEntry res3 2 7)]);
    [discriminate|].
  repeat constructor; simpl; lia.
Defined.

Lemma timestamps_in_order_witness :
  stamped live_cache ∧
  Forall (λ x : string * CacheEntry, (created_at x.2 ≤ last_accessed_at x.2)%Z)
         (cache_ (self live_cache)).
Proof.
  apply (timestamps_in_order (ord := front_insertion) 2 test_env (test_cache 2)
           [CallSetPolicy (Some LRUPolicy); CallPut "key1" res1]
           [Done; Done] live_cache);
    [reflexivity| | |apply live_cache_reachable].
  - intros i j Hij. simpl. lia.
  - repeat constructor. apply LRUPolicy_honours_contract.
Defined.

Lemma SetPolicy_takes_effect_on_next_Put_witness :
  ∃ m',
    run (ord := front_insertion)
        [CallSetPolicy (Some LRUPolicy); CallPut "key2" res2] live_cache
    = Returns ([Done; Done], m') ∧
    cache_ (self m')
    = assign (ord := front_insertion) "key2" (put_entry res2 (env live_cache)) [] ∧
    policy_ (self m') = Some LRUPolicy.
Proof.
  apply (SetPolicy_takes_effect_on_next_Put (ord := front_insertion)
           LRUPolicy "key2" res2 live_cache []);
    reflexivity.
Defined.

Lemma CleanupExpired_invisible_to_Contains_witness :
  ∃ b m1 m2 m3,
    Contains "temp" stale_cache = Returns (b, m1) ∧
    CleanupExpired stale_cache = Returns (tt, m2) ∧
    Contains "temp" m2 = Returns (b, m3).
Proof.
  apply (CleanupExpired_invisible_to_Contains "temp" stale_cache);
    [reflexivity|apply NoDup_singleton].
Defined.

Lemma run_keeps_keys_unique_witness :
  unique_keys (cache_ (self live_cache)).
Proof.
  apply (run_keeps_keys_unique (ord := front_insertion)
           [CallSetPolicy (Some LRUPolicy); CallPut "key1" res1]
           (test_cache 2) [Done; Done] live_cache);
    [|reflexivity|discriminate|apply NoDup_nil_2|apply live_cache_reachable].
  repeat constructor. apply LRUPolicy_honours_contract.
Defined.
